(** * ingress_per_unit: a shallow embedding of the interface library

    Source: [lib/charms/traefik_k8s/v0/ingress_per_unit.py].

    The library exchanges YAML documents over Juju relation databags.  The
    embedding keeps the shape of the Python code:

    - Python values produced by [yaml.safe_load] are the inductive [value];
      dictionaries are [gmap string value], so that two dictionaries with the
      same items are equal, as [==] on Python dicts is.  The universe is that of
      the two schemas of the interface: mappings with string keys and
      null/bool/int/str scalars (sequences, floats and timestamps are not
      exchanged on this interface and are left out).
    - Python exceptions are the inductive [exn]; a computation that may raise
      is a [result], and a method that also mutates an object is a function of
      the monad [M S], with [S] the mutated object.
    - A relation is a record with its remote application, its units and one
      databag per entity; a method that writes to [relation.data] is a function
      of [M Relation].

    Three collaborators are not part of the repository and are modelled:
    [jsonschema.validate], as an interpreter over the schema keywords the two
    schemas use ([is_valid]); the write protection of the framework's databags
    ([databag_setitem]); and the YAML library, as an interface ([Yaml]) that the
    protocol is parametric in, with a reference implementation for block
    mappings ([PyYaml]) on which the code is run. *)

From Stdlib Require Import ZArith Ascii Decimal DecimalString DecimalZ DecimalPos.
From stdpp Require Import gmap strings list fin_maps.

Set Warnings "-register-all".

Local Open Scope string_scope.

(** ** Python values *)

Inductive value :=
  | VNull
  | VBool (b : bool)
  | VInt (z : Z)
  | VStr (s : string)
  | VDict (m : gmap string value).

(** Python truthiness, [bool(v)]. *)
Definition str_truthy (s : string) : bool :=
  match s with EmptyString => false | _ => true end.

Definition truthy (v : value) : bool :=
  match v with
  | VNull => false
  | VBool b => b
  | VInt z => negb (z =? 0)%Z
  | VStr s => str_truthy s
  | VDict m => negb (bool_decide (m = ∅))
  end.

(** Truthiness of an optional raw string, as in [if raw_data]. *)
Definition raw_truthy (raw : option string) : bool :=
  match raw with Some s => str_truthy s | None => false end.

(** Python [==]; [bool] is a subclass of [int], so [True == 1]. *)
Fixpoint py_eq (v1 v2 : value) {struct v1} : bool :=
  match v1, v2 with
  | VNull, VNull => true
  | VBool a, VBool b => bool_decide (a = b)
  | VBool a, VInt z | VInt z, VBool a => (Z.b2z a =? z)%Z
  | VInt a, VInt b => (a =? b)%Z
  | VStr a, VStr b => bool_decide (a = b)
  | VDict m1, VDict m2 =>
      (size m1 =? size m2)%nat
      && map_fold (λ k x acc,
           acc && match m2 !! k with Some y => py_eq x y | None => false end)
         true m1
  | _, _ => false
  end.

(** ** JSON schemas and [jsonschema.validate] *)

Inductive jtype := JObject | JString | JInteger.

Inductive schema :=
  Schema (type : option jtype)
         (properties : list (string * schema))
         (patternProperties : list (string * schema))
         (required : list string).

(** [bool] inherits from [int], and jsonschema does not report it as an
    integer. *)
Definition is_type (t : jtype) (v : value) : bool :=
  match t, v with
  | JObject, VDict _ => true
  | JString, VStr _ => true
  | JInteger, VInt _ => true
  | _, _ => false
  end.

(** [p in s] on strings: [p] occurs in [s]. *)
Fixpoint str_prefix (p s : string) : bool :=
  match p, s with
  | EmptyString, _ => true
  | String a p', String b s' => bool_decide (a = b) && str_prefix p' s'
  | _, _ => false
  end.

Fixpoint str_contains (p s : string) : bool :=
  str_prefix p s
  || match s with String _ s' => str_contains p s' | EmptyString => false end.

(** [re.search pattern key] for a pattern without metacharacters: the pattern
    occurs in the key.  The only pattern of the interface is the empty one,
    which every key matches. *)
Definition re_search (pattern key : string) : bool := str_contains pattern key.

(** Modelled from the spec: [jsonschema.validate] belongs to a library that is
    not part of the repository.  The schemas are enforced structurally, by
    type and required-field checks, with no coercion: [type] tests the instance,
    and [properties], [patternProperties] and [required] constrain an instance
    that is an object and accept any other. *)
Fixpoint is_valid (s : schema) (v : value) {struct s} : bool :=
  let 'Schema ty props pprops req := s in
  match ty with Some t => is_type t v | None => true end
  && match v with
     | VDict m =>
         (fix go (ps : list (string * schema)) : bool :=
            match ps with
            | [] => true
            | (k, s') :: ps' =>
                match m !! k with Some x => is_valid s' x | None => true end
                && go ps'
            end) props
         && (fix go (ps : list (string * schema)) : bool :=
            match ps with
            | [] => true
            | (pat, s') :: ps' =>
                map_fold (λ k x acc,
                  acc && (if re_search pat k then is_valid s' x else true)) true m
                && go ps'
            end) pprops
         && forallb (λ k, bool_decide (is_Some (m !! k))) req
     | _ => true
     end.

Definition INGRESS_REQUIRES_UNIT_SCHEMA : schema :=
  Schema (Some JObject)
    [("model", Schema (Some JString) [] [] []);
     ("name", Schema (Some JString) [] [] []);
     ("host", Schema (Some JString) [] [] []);
     ("port", Schema (Some JInteger) [] [] [])]
    []
    ["model"; "name"; "host"; "port"].

Definition INGRESS_PROVIDES_APP_SCHEMA : schema :=
  Schema (Some JObject)
    [("ingress",
      Schema (Some JObject) []
        [("", Schema (Some JObject)
                [("_supported_versions", Schema (Some JString) [] [] []);
                 ("url", Schema (Some JString) [] [] [])]
                []
                ["url"])]
        [])]
    []
    ["ingress"].

(** ** The operator framework: applications, units, relations *)

Record Application := { app_name : string }.
Record Unit := { unit_name : string; unit_app : Application }.

Inductive Entity := AppE (a : Application) | UnitE (u : Unit).

Global Instance Application_eq_dec : EqDecision Application.
Proof. solve_decision. Defined.
Global Instance Unit_eq_dec : EqDecision Unit.
Proof. solve_decision. Defined.
Global Instance Entity_eq_dec : EqDecision Entity.
Proof. solve_decision. Defined.

Global Instance Entity_countable : Countable Entity.
Proof.
  refine (inj_countable'
    (λ e, match e with
          | AppE a => inl (app_name a)
          | UnitE u => inr (unit_name u, app_name (unit_app u))
          end)
    (λ x, match x with
          | inl a => AppE {| app_name := a |}
          | inr (u, a) => UnitE {| unit_name := u; unit_app := {| app_name := a |} |}
          end) _).
  by intros [[?]|[? [?]]].
Defined.

(** [relation.data]: one databag (a [str -> str] mapping) per entity.  The
    framework gives a databag, possibly empty, to this unit, this application,
    every remote unit and the remote application. *)
Record Relation := {
  rel_name : string;
  rel_id : Z;
  rel_app : option Application;   (* [relation.app], [None] while breaking *)
  rel_units : list Unit;          (* [relation.units], in iteration order *)
  rel_data : gmap Entity (gmap string string);
}.

Definition databag (relation : Relation) (e : Entity) : gmap string string :=
  default ∅ (rel_data relation !! e).

(** ** Exceptions *)

Inductive exn :=
  | DataValidationError (data : value) (s : schema)
  | UnknownUnitException (relation : Relation) (unit : Unit)
  | RelationDataMismatchError (relation : Relation) (entity : Unit)
  | RelationPermissionError (relation : Relation) (entity : Unit) (message : string)
  | NotImplementedError (message : string)
  (* raised by the interpreter or by the libraries the code calls *)
  | AttributeError
  | TypeError
  | KeyError (key : string)
  | YAMLError
  | RelationDataError.

Inductive result (A : Type) :=
  | Return (a : A)
  | Raise (e : exn).
Global Arguments Return {A} _.
Global Arguments Raise {A} _.

Global Instance result_ret : MRet result := λ A a, Return a.
Global Instance result_bind : MBind result := λ A B k r,
  match r with Return a => k a | Raise e => Raise e end.

Definition returns {A} (r : result A) : bool :=
  match r with Return _ => true | Raise _ => false end.

(** [M S A]: a method that may mutate an object of type [S] and may raise.  A
    raise keeps the mutations made before it, as in Python. *)
Definition M (S A : Type) : Type := S → result A * S.

Global Instance M_ret {S} : MRet (M S) := λ A a s, (Return a, s).
Global Instance M_bind {S} : MBind (M S) := λ A B k m s,
  match m s with
  | (Return a, s') => k a s'
  | (Raise e, s') => (Raise e, s')
  end.

Definition raise {S A} (e : exn) : M S A := λ s, (Raise e, s).
Definition lift {S A} (r : result A) : M S A := λ s, (r, s).
Definition get {S} : M S S := λ s, (Return s, s).

(** ** Dictionary operations on Python values *)

(** [key in v]. *)
Definition py_contains (key : string) (v : value) : result bool :=
  match v with
  | VDict m => Return (bool_decide (is_Some (m !! key)))
  | VStr s => Return (str_contains key s)
  | _ => Raise TypeError
  end.

(** [v[key]]. *)
Definition py_getitem (v : value) (key : string) : result value :=
  match v with
  | VDict m => match m !! key with Some x => Return x | None => Raise (KeyError key) end
  | _ => Raise TypeError
  end.

(** [v.get(key, dflt)]. *)
Definition py_get (v : value) (key : string) (dflt : value) : result value :=
  match v with
  | VDict m => Return (default dflt (m !! key))
  | _ => Raise AttributeError
  end.

(** [v[key] = x], on a dictionary that is held by value. *)
Definition py_setitem (v : value) (key : string) (x : value) : result value :=
  match v with
  | VDict m => Return (VDict (<[key := x]> m))
  | _ => Raise TypeError
  end.

(** [d[k] = x] on an insertion-ordered dictionary with arbitrary keys: an
    existing key keeps its place. *)
Fixpoint odict_set {K V} `{EqDecision K} (d : list (K * V)) (k : K) (x : V) : list (K * V) :=
  match d with
  | [] => [(k, x)]
  | (k', y) :: d' => if decide (k' = k) then (k, x) :: d' else (k', y) :: odict_set d' k x
  end.

(** [any(map(f, xs))]: stops at the first true result; an exception raised
    on the way propagates. *)
Fixpoint any_map {A} (f : A → result bool) (xs : list A) : result bool :=
  match xs with
  | [] => Return false
  | x :: xs' => b ← f x; if b : bool then Return true else any_map f xs'
  end.

(** ** Serialization utils *)

(** The YAML library, as the code uses it.  [yaml_safe_load] gives [None] for
    a text that [yaml.safe_load] rejects with a [YAMLError]. *)
Class Yaml := {
  yaml_safe_load : string → option value;
  yaml_safe_dump : value → nat → string;   (* [safe_dump(data, indent=n)] *)
}.

Section Utils.
Context {Y : Yaml}.

Definition _deserialize_data (data : string) : result value :=
  match yaml_safe_load data with
  | Some v => Return v
  | None => Raise YAMLError
  end.

Definition _serialize_data (data : value) : string :=
  yaml_safe_dump data 2.

Definition _validate_data (data : value) (s : schema) : result unit :=
  if is_valid s data then Return tt else Raise (DataValidationError data s).
End Utils.

(** [RequirerData]: the dictionary a requirer unit publishes. *)
Definition RequirerData (model name host : string) (port : Z) : value :=
  VDict (<[ "model" := VStr model ]> (<[ "name" := VStr name ]>
        (<[ "host" := VStr host ]> (<[ "port" := VInt port ]> ∅)))).

(** ** The charm and its events *)

Record Charm := {
  this_app : Application;       (* [charm.app] *)
  this_unit : Unit;             (* [charm.unit] *)
  is_leader : bool;             (* [charm.unit.is_leader()] *)
  model_name : string;          (* [self.model.name] *)
  bind_address : string;        (* [str(binding.network.bind_address)] *)
}.

(** The hook events the library observes. *)
Inductive hook :=
  | relation_created (relation : Relation)
  | relation_joined (relation : Relation)
  | relation_changed (relation : Relation)
  | relation_broken (relation : Relation)
  | leader_elected
  | upgrade_charm.

(** The events the library emits on [self.on]. *)
Inductive event :=
  | available (relation : Relation)
  | ready (relation : Relation)
  | failed (relation : Relation)
  | broken (relation : Relation)
  | request (relation : Relation)
  | ingress_changed (relation : option Relation).

(** The statuses of [ops.model] that [get_status] suggests. *)
Inductive StatusBase :=
  | BlockedStatus (message : string)
  | WaitingStatus (message : string)
  | ActiveStatus.

(** [str(i)] on an integer: its decimal writing. *)
Definition str_of_int (i : Z) : string :=
  DecimalString.NilZero.string_of_int (Z.to_int i).

(** Modelled from the spec: the databags belong to the operator framework,
    which is not part of the repository.  A write must fail when the caller is
    not the owner of the partition: the framework refuses a write to an
    application databag by a unit that is not the leader, and a write to the
    databag of another entity, with its own [RelationDataError]. *)
Definition is_mutable (c : Charm) (e : Entity) : bool :=
  match e with
  | AppE a => bool_decide (a = this_app c) && is_leader c
  | UnitE u => bool_decide (u = this_unit c)
  end.

Definition relation_set (relation : Relation) (e : Entity) (key val : string) : Relation :=
  {| rel_name := rel_name relation; rel_id := rel_id relation;
     rel_app := rel_app relation; rel_units := rel_units relation;
     rel_data := <[e := <[key := val]> (databag relation e)]> (rel_data relation) |}.

(** [relation.data[e][key] = val]. *)
Definition databag_setitem (c : Charm) (e : Entity) (key val : string) : M Relation unit :=
  λ relation,
    if is_mutable c e then (Return tt, relation_set relation e key val)
    else (Raise RelationDataError, relation).

(** ** class _IngressPerUnitBase *)

Module _IngressPerUnitBase.

Definition is_available_rel (relation : Relation) : result bool :=
  match rel_app relation with
  | None => Raise AttributeError                 (* [None.name] *)
  | Some a =>
      if negb (str_truthy (app_name a)) then Return false
      else Return true
  end.

Definition is_available (relations : list Relation) (relation : option Relation) : result bool :=
  match relation with
  | None => any_map is_available_rel relations
  | Some relation => is_available_rel relation
  end.

Definition is_ready_rel (relation : Relation) : result bool :=
  match rel_app relation with
  | None => Return false
  | Some a =>
      if negb (str_truthy (app_name a)) then Return false
      else Return true
  end.

(** [self_is_ready] is the method [self.is_ready] resolves to: both roles
    override it. *)
Definition is_ready (self_is_ready : Relation → result bool)
    (relations : list Relation) (relation : option Relation) : result bool :=
  match relation with
  | None => any_map self_is_ready relations
  | Some relation => is_ready_rel relation
  end.

Definition is_failed (_ : option Relation) : result bool :=
  Raise (NotImplementedError "implement in subclass").

Section Handlers.
(** The object, its three predicates and its [self.on.<event>.emit], which
    runs the observers of the event. *)
Context {Self : Type}.
Variable self_is_ready : Self → option Relation → result bool.
Variable self_is_available : Self → option Relation → result bool.
Variable self_is_failed : Self → option Relation → result bool.
Variable emit : event → M Self unit.

Definition log_debug : M Self unit := mret tt.

Definition _handle_relation (relation : Relation) : M Self unit :=
  self ← get;
  b ← lift (self_is_ready self (Some relation));
  if b : bool then emit (ready relation)
  else
    b ← lift (self_is_available self (Some relation));
    if b : bool then emit (available relation)
    else
      b ← lift (self_is_failed self (Some relation));
      if b : bool then emit (failed relation)
      else log_debug.

(** ["{}:{}".format(relation.name, relation.id)]. *)
Definition relation_label (relation : Relation) : string :=
  rel_name relation ++ ":" ++ str_of_int (rel_id relation).

Definition get_status (relation : Relation) (self : Self) : result StatusBase :=
  b ← self_is_failed self (Some relation);
  if b : bool then
    Return (BlockedStatus ("Error handling relation " ++ relation_label relation))
  else
    b ← self_is_available self (Some relation);
    if negb b then
      Return (WaitingStatus ("Waiting on relation " ++ relation_label relation))
    else
      b ← self_is_ready self (Some relation);
      if negb b then
        Return (WaitingStatus ("Waiting on relation " ++ relation_label relation))
      else Return ActiveStatus.

Definition _handle_relation_broken (relation : Relation) : M Self unit :=
  emit (broken relation).

Definition _handle_upgrade_or_leader : M Self unit := mret tt.

Definition _emit_request_event (relation : Relation) : M Self unit :=
  emit (request relation).
End Handlers.

End _IngressPerUnitBase.

(** ** class IngressPerUnitProvider *)

Module IngressPerUnitProvider.

Record t := {
  charm : Charm;
  relations : list Relation;   (* [self.relations] *)
  on : list event;             (* the events emitted so far, oldest first *)
}.

Definition emit_raw (e : event) : M t unit :=
  λ self, (Return tt,
           {| charm := charm self; relations := relations self; on := on self ++ [e] |}).

(** [self.on.<event>.emit(relation)]; the constructor has [ready] observed by
    [_emit_request_event]. *)
Definition emit (e : event) : M t unit :=
  emit_raw e;;
  match e with
  | ready relation => _IngressPerUnitBase._emit_request_event emit_raw relation
  | _ => mret tt
  end.

Definition _share_version_info (c : Charm) : M Relation unit :=
  if is_leader c then databag_setitem c (AppE (this_app c)) "_supported_versions" "- v1"
  else mret tt.

Section WithYaml.
Context {Y : Yaml}.

Definition ProviderApplicationData : Type := value.
Definition RequirerUnitData : Type := list (Unit * value).

(** The loop over [remote_units] of [_fetch_relation_data]. *)
Fixpoint fetch_remote_units (relation : Relation) (validate : bool)
    (remote_units : list Unit) (requirer_unit_data : RequirerUnitData)
    : result RequirerUnitData :=
  match remote_units with
  | [] => Return requirer_unit_data
  | remote_unit :: rest =>
      let remote_data := databag relation (UnitE remote_unit) !! "data" in
      remote_deserialized ←
        (if raw_truthy remote_data then
           d ← _deserialize_data (default "" remote_data);
           (if validate then _validate_data d INGRESS_REQUIRES_UNIT_SCHEMA
            else Return tt);;
           Return d
         else Return (VDict ∅));
      fetch_remote_units relation validate rest
        (odict_set requirer_unit_data remote_unit remote_deserialized)
  end.

Definition _fetch_relation_data (c : Charm) (relation : Relation) (validate : bool)
    : result (ProviderApplicationData * RequirerUnitData) :=
  if match rel_app relation with
     | None => true
     | Some a => negb (str_truthy (app_name a))
     end
  then Return (VDict ∅, [])
  else
    provider_app_data ←
      (if is_leader c then
         let data := databag relation (AppE (this_app c)) !! "data" in
         deserialized ←
           (if raw_truthy data then
              d ← _deserialize_data (default "" data);
              (if validate then _validate_data d INGRESS_PROVIDES_APP_SCHEMA
               else Return tt);;
              Return d
            else Return (VDict ∅));
         py_get deserialized "ingress" (VDict ∅)
       else Return (VDict ∅));
    let remote_units :=
      filter (λ u, unit_app u ≠ this_app c) (rel_units relation) in
    requirer_unit_data ← fetch_remote_units relation validate remote_units [];
    Return (provider_app_data, requirer_unit_data).

Definition is_ready_rel (self : t) (relation : Relation) : result bool :=
  b ← _IngressPerUnitBase.is_ready_rel relation;
  if negb b then Return false
  else
    match _fetch_relation_data (charm self) relation false with
    | Raise _ => Return false                   (* [except Exception] *)
    | Return (_, requirer_unit_data) =>
        Return (existsb truthy (requirer_unit_data.*2))
    end.

Definition is_ready (self : t) (relation : option Relation) : result bool :=
  match relation with
  | None => any_map (is_ready_rel self) (relations self)
  | Some relation => is_ready_rel self relation
  end.

(** The loop of [is_failed] over [requirer_unit_data.items()], with the
    current [expected_model]. *)
Fixpoint check_models (relation : Relation) (items : RequirerUnitData)
    (expected_model : value) : result unit :=
  match items with
  | [] => Return tt
  | (remote_unit, remote_unit_data) :: rest =>
      has_model ← py_contains "model" remote_unit_data;
      if has_model : bool then
        remote_model ← py_getitem remote_unit_data "model";
        if negb (truthy expected_model) then
          check_models relation rest remote_model
        else if negb (py_eq expected_model remote_model) then
          Raise (RelationDataMismatchError relation remote_unit)
        else check_models relation rest expected_model
      else check_models relation rest expected_model
  end.

Definition is_failed_rel (self : t) (relation : Relation) : result bool :=
  match rel_app relation with
  | None => Raise AttributeError                 (* [None.name] *)
  | Some a =>
      if negb (str_truthy (app_name a)) then Return false
      else if bool_decide (rel_units relation = []) then Return false
      else
        match _fetch_relation_data (charm self) relation true with
        | Raise (DataValidationError _ _) => Return true
        | Raise e => Raise e
        | Return (_, requirer_unit_data) =>
            check_models relation requirer_unit_data VNull;;
            Return false
        end
  end.

Definition is_failed (self : t) (relation : option Relation) : result bool :=
  match relation with
  | None => any_map (is_failed_rel self) (relations self)
  | Some relation => is_failed_rel self relation
  end.

Definition is_available (self : t) (relation : option Relation) : result bool :=
  _IngressPerUnitBase.is_available (relations self) relation.

Definition get_data (relation : Relation) (u : Unit) (validate : bool) : result value :=
  match databag relation (UnitE u) !! "data" with
  | None => Raise (KeyError "data")
  | Some raw =>
      data ← _deserialize_data raw;
      (if validate then _validate_data data INGRESS_REQUIRES_UNIT_SCHEMA
       else Return tt);;
      Return data
  end.

Definition log_error : M Relation unit := mret tt.

(** [data['ingress'][unit_name] = x]. *)
Definition set_ingress (data : value) (unit_name : string) (x : value) : result value :=
  ingress ← py_getitem data "ingress";
  ingress' ← py_setitem ingress unit_name x;
  py_setitem data "ingress" ingress'.

Definition publish_url (c : Charm) (unit_name url : string) : M Relation unit :=
  relation ← get;
  let raw_data := databag relation (AppE (this_app c)) !! "data" in
  data ← lift (if raw_truthy raw_data then _deserialize_data (default "" raw_data)
               else Return (VDict {[ "ingress" := VDict ∅ ]}));
  match _validate_data data INGRESS_PROVIDES_APP_SCHEMA with
  | Raise (DataValidationError _ _) => log_error     (* and [return] *)
  | Raise e => raise e
  | Return _ =>
      data ← lift (set_ingress data unit_name (VDict {[ "url" := VStr url ]}));
      databag_setitem c (AppE (this_app c)) "data" (_serialize_data data)
  end.

Definition wipe_ingress_data (c : Charm) : M Relation unit :=
  databag_setitem c (AppE (this_app c)) "data" "".

Definition publish_ingress_data (c : Charm) (data : ProviderApplicationData)
    : M Relation unit :=
  relation ← get;
  if negb (is_leader c) then
    raise (RelationPermissionError relation (this_unit c) "This unit is not the leader")
  else
    let wrapped_data := VDict {[ "ingress" := data ]} in
    lift (_validate_data wrapped_data INGRESS_PROVIDES_APP_SCHEMA);;
    (* if all is well, write the data *)
    databag_setitem c (AppE (this_app c)) "data" (_serialize_data wrapped_data).

Definition _handle_relation : Relation → M t unit :=
  _IngressPerUnitBase._handle_relation is_ready is_available is_failed emit.

Definition _handle_relation_broken : Relation → M t unit :=
  _IngressPerUnitBase._handle_relation_broken emit.

Definition get_status : Relation → t → result StatusBase :=
  _IngressPerUnitBase.get_status is_ready is_available is_failed.

(** [None] is the [AssertionError] of the [assert]: the unit does not belong
    to the relation. *)
Definition is_unit_ready (relation : Relation) (u : Unit) : option bool :=
  if bool_decide (u ∈ rel_units relation) then
    if raw_truthy (databag relation (UnitE u) !! "data") then Some true
    else Some false
  else None.

(** What [proxied_endpoints] raises: an exception of the methods it calls, or
    the [ValueError] of [dict.update]. *)
Inductive raised :=
  | Exn (e : exn)
  | ValueError.

(** [results.update(v)]: the items of a mapping replace those of [results];
    an empty string has no element to add; any other string fails on its first
    character, which is not a pair; another scalar is not iterable. *)
Definition dict_update (results : gmap string value) (v : value)
    : raised + gmap string value :=
  match v with
  | VDict m => inr (m ∪ results)
  | VStr s => if str_truthy s then inl ValueError else inr results
  | _ => inl (Exn TypeError)
  end.

(** The loop of [proxied_endpoints] over [self.relations]. *)
Fixpoint proxied_endpoints_loop (c : Charm) (ingress_relations : list Relation)
    (results : gmap string value) : raised + gmap string value :=
  match ingress_relations with
  | [] => inr results
  | ingress_relation :: rest =>
      match _fetch_relation_data c ingress_relation false with
      | Raise e => inl (Exn e)
      | Return (provider_app_data, _) =>
          match dict_update results provider_app_data with
          | inl e => inl e
          | inr results' => proxied_endpoints_loop c rest results'
          end
      end
  end.

Definition proxied_endpoints (self : t) : raised + gmap string value :=
  proxied_endpoints_loop (charm self) (relations self) ∅.
End WithYaml.

End IngressPerUnitProvider.

(** ** class IngressPerUnitRequirer *)

Module IngressPerUnitRequirer.

Record t := {
  charm : Charm;
  relations : list Relation;                 (* [self.relations] *)
  _auto_data : option (option string * Z);   (* [(host, port)] *)
  is_relation_broken : bool;
  on : list event;                           (* emitted so far, oldest first *)
}.

Definition __init__ (c : Charm) (rels : list Relation)
    (host : option string) (port : option Z) : t :=
  {| charm := c; relations := rels;
     _auto_data := match port with
                   | Some p => if negb (p =? 0)%Z then Some (host, p) else None
                   | None => None
                   end;
     is_relation_broken := false;
     on := [] |}.

(** The property [relation]: [self.relations[0] if self.relations else None]. *)
Definition relation (self : t) : option Relation := head (relations self).

Definition emit (e : event) : M t unit :=
  λ self, (Return tt,
           {| charm := charm self; relations := relations self;
              _auto_data := _auto_data self;
              is_relation_broken := is_relation_broken self;
              on := on self ++ [e] |}).

Definition set_is_relation_broken (b : bool) : M t unit :=
  λ self, (Return tt,
           {| charm := charm self; relations := relations self;
              _auto_data := _auto_data self;
              is_relation_broken := b;
              on := on self |}).

(** A method of the object [self.relation], run on the first relation. *)
Definition on_relation {A} (m : M Relation A) : M t A :=
  λ self,
    match relations self with
    | [] => (Raise AttributeError, self)          (* [None.data] *)
    | r :: rest =>
        let '(a, r') := m r in
        (a, {| charm := charm self; relations := r' :: rest;
               _auto_data := _auto_data self;
               is_relation_broken := is_relation_broken self;
               on := on self |})
    end.

Section WithYaml.
Context {Y : Yaml}.

Definition urls (self : t) : result (gmap string value) :=
  match relation self with
  | None => Return ∅
  | Some relation =>
      if is_relation_broken self then Return ∅
      else
        raw ← match rel_app relation with
              | None => Raise AttributeError        (* [None.name] *)
              | Some a =>
                  if str_truthy (app_name a)
                  then Return (databag relation (AppE a) !! "data")
                  else Return None
              end;
        if negb (raw_truthy raw) then Return ∅
        else
          data ← _deserialize_data (default "" raw);
          _validate_data data INGRESS_PROVIDES_APP_SCHEMA;;
          ingress ← py_get data "ingress" (VDict ∅);
          match ingress with
          | VDict items =>
              kvs ← mapM (λ '(unit_name, unit_data),
                            u ← py_getitem unit_data "url"; Return (unit_name, u))
                         (map_to_list items);
              Return (list_to_map kvs)
          | _ => Raise AttributeError               (* no [items] *)
          end
  end.

Definition url (self : t) : result (option value) :=
  u ← urls self;
  if bool_decide (u = ∅) then Return None
  else
    u ← urls self;
    Return (u !! unit_name (this_unit (charm self))).

Definition url_truthy (u : option value) : bool :=
  match u with Some v => truthy v | None => false end.

Definition is_ready_rel (self : t) (relation : Relation) : result bool :=
  b ← _IngressPerUnitBase.is_ready_rel relation;
  if negb b then Return false
  else u ← url self; Return (url_truthy u).

Definition is_ready (self : t) (relation : option Relation) : result bool :=
  b ← _IngressPerUnitBase.is_ready (is_ready_rel self) (relations self) relation;
  if negb b then Return false
  else u ← url self; Return (url_truthy u).

Definition is_failed_rel (self : t) (relation : Relation) : result bool :=
  match relations self with
  | [] => Return false                        (* can't fail if you can't try *)
  | self_relation :: _ =>
      match rel_app relation with
      | None => Raise AttributeError          (* [None.name] *)
      | Some a =>
          if negb (str_truthy (app_name a)) then Return false
          else if bool_decide (rel_units relation = []) then Return false
          else
            let raw := databag self_relation (UnitE (this_unit (charm self))) !! "data" in
            if raw_truthy raw then
              data ← _deserialize_data (default "" raw);
              match _validate_data data INGRESS_REQUIRES_UNIT_SCHEMA with
              | Raise (DataValidationError _ _) => Return true
              | Raise e => Raise e
              | Return _ => Return false
              end
            else Return false
      end
  end.

Definition is_failed (self : t) (relation : option Relation) : result bool :=
  match relations self with
  | [] => Return false
  | _ =>
      match relation with
      | None => any_map (is_failed_rel self) (relations self)
      | Some relation => is_failed_rel self relation
      end
  end.

Definition is_available (self : t) (relation : option Relation) : result bool :=
  _IngressPerUnitBase.is_available (relations self) relation.

Definition _emit_ingress_change_event (ev : hook) : M t unit :=
  (match ev with
   | relation_broken _ => set_is_relation_broken true
   | _ => mret tt
   end);;
  self ← get;
  emit (ingress_changed (relation self)).

Definition _publish_ingress_data (host : option string) (port : Z) : M t unit :=
  self ← get;
  let host :=
    if raw_truthy host then default "" host
    else bind_address (charm self) in
  let data := RequirerData (model_name (charm self))
                (unit_name (this_unit (charm self))) host port in
  on_relation (databag_setitem (charm self) (UnitE (this_unit (charm self)))
                 "data" (_serialize_data data)).

Definition request (host : option string) (port : Z) : M t unit :=
  _publish_ingress_data host port.

Definition _publish_auto_data (relation : Relation) : M t unit :=
  self ← get;
  match _auto_data self with
  | None => mret tt
  | Some (host, port) =>
      b ← lift (is_available self (Some relation));
      if b : bool then _publish_ingress_data host port else mret tt
  end.

Definition _handle_relation (relation : Relation) : M t unit :=
  _IngressPerUnitBase._handle_relation is_ready is_available is_failed emit relation;;
  _publish_auto_data relation.

Definition _handle_relation_broken : Relation → M t unit :=
  _IngressPerUnitBase._handle_relation_broken emit.

Definition get_status : Relation → t → result StatusBase :=
  _IngressPerUnitBase.get_status is_ready is_available is_failed.

Definition _handle_upgrade_or_leader : M t unit :=
  self ← get;
  mapM _publish_auto_data (relations self);; mret tt.

(** The observers the two constructors register, in registration order. *)
Definition dispatch (ev : hook) : M t unit :=
  match ev with
  | relation_created r | relation_joined r => _handle_relation r
  | relation_changed r => _handle_relation r;; _emit_ingress_change_event ev
  | relation_broken r => _handle_relation_broken r;; _emit_ingress_change_event ev
  | leader_elected | upgrade_charm => _handle_upgrade_or_leader
  end.
End WithYaml.

End IngressPerUnitRequirer.

(** ** A reference implementation of the YAML library

    [PyYaml] implements [Yaml] for the documents this interface exchanges:
    block mappings whose keys are strings and whose values are nested
    mappings or null, bool, int and str scalars.  It writes them in the block
    style of [yaml.safe_dump]: one [key: value] line per entry, keys sorted,
    nested mappings indented below their key, strings plain when they are
    words that YAML reads back as strings, in single quotes when they are
    otherwise printable, and in double quotes with escapes when they are not.
    The choice of plain scalars is a cautious one (a string with a space is
    quoted), and long lines are not folded.  The loader reads this fragment
    and reports any other document as a [YAMLError]. *)

Module PyYaml.

Local Open Scope char_scope.

Definition code (c : ascii) : N := N_of_ascii c.
Definition dquote : ascii := ascii_of_N 34.

Definition is_digit (c : ascii) : bool := (48 <=? code c)%N && (code c <=? 57)%N.
Definition is_letter (c : ascii) : bool :=
  (65 <=? code c)%N && (code c <=? 90)%N || (97 <=? code c)%N && (code c <=? 122)%N.
Definition is_printable (c : ascii) : bool := (32 <=? code c)%N && (code c <=? 126)%N.
Definition is_plain_char (c : ascii) : bool :=
  is_letter c || is_digit c
  || bool_decide (c = "_") || bool_decide (c = ".") || bool_decide (c = "/")
  || bool_decide (c = ":") || bool_decide (c = "-").

Fixpoint str_forall (p : ascii → bool) (s : string) : bool :=
  match s with
  | EmptyString => true
  | String c s' => p c && str_forall p s'
  end.

Fixpoint str_count (c : ascii) (s : string) : nat :=
  match s with
  | EmptyString => 0
  | String c' s' => (if bool_decide (c' = c) then 1 else 0) + str_count c s'
  end.

Fixpoint str_last (s : string) : option ascii :=
  match s with
  | EmptyString => None
  | String c EmptyString => Some c
  | String _ s' => str_last s'
  end.

Local Open Scope string_scope.

(** *** Scalars *)

(** The plain scalars YAML 1.1 resolves to null and to booleans. *)
Definition resolve_word (s : string) : option value :=
  if bool_decide (s ∈ ["null"; "Null"; "NULL"]) then Some VNull
  else if bool_decide (s ∈ ["yes"; "Yes"; "YES"; "true"; "True"; "TRUE"; "on"; "On"; "ON"])
  then Some (VBool true)
  else if bool_decide (s ∈ ["no"; "No"; "NO"; "false"; "False"; "FALSE"; "off"; "Off"; "OFF"])
  then Some (VBool false)
  else None.

Global Instance uint_eq_dec : EqDecision Decimal.uint.
Proof. solve_decision. Defined.
Global Instance int_eq_dec : EqDecision Decimal.int.
Proof. solve_decision. Defined.

(** Decimal integers, without leading zeros (those are octal in YAML 1.1). *)
Definition resolve_int (s : string) : option value :=
  match DecimalString.NilZero.int_of_string s with
  | Some d =>
      if bool_decide (Decimal.norm d = d) then Some (VInt (Z.of_int d)) else None
  | None => None
  end.

(** The value of a plain scalar.  A word that starts with a letter or a
    slash is a string unless it is one of the reserved words; one that
    starts with a digit is a string when it has two dots or more (no number
    or timestamp has), and a decimal integer otherwise. *)
Definition resolve (s : string) : option value :=
  match s with
  | EmptyString => None
  | String c _ =>
      if is_letter c || bool_decide (c = "/"%char) then
        match resolve_word s with
        | Some v => Some v
        | None => Some (VStr s)
        end
      else if is_digit c && (2 <=? str_count "." s)%nat then Some (VStr s)
      else if is_digit c || bool_decide (c = "-"%char) then resolve_int s
      else None
  end.

(** A string may be written plain when it reads back as itself. *)
Definition plain_ok (s : string) : bool :=
  str_forall is_plain_char s
  && negb (bool_decide (str_last s = Some ":"%char))
  && match resolve s with
     | Some (VStr s') => bool_decide (s' = s)
     | _ => false
     end.

Fixpoint quote_single (s : string) : string :=
  match s with
  | EmptyString => EmptyString
  | String c s' =>
      if bool_decide (c = "'"%char) then String "'" (String "'" (quote_single s'))
      else String c (quote_single s')
  end.

Definition hex_digit (n : N) : ascii :=
  if (n <? 10)%N then ascii_of_N (48 + n) else ascii_of_N (55 + n).

Definition hex_value (c : ascii) : option N :=
  if is_digit c then Some (code c - 48)%N
  else if (65 <=? code c)%N && (code c <=? 70)%N then Some (code c - 55)%N
  else if (97 <=? code c)%N && (code c <=? 102)%N then Some (code c - 87)%N
  else None.

(** The escapes of the emitter ([ESCAPE_REPLACEMENTS]). *)
Definition escape_letter (c : ascii) : option ascii :=
  match code c with
  | 0%N => Some "0"%char
  | 7%N => Some "a"%char
  | 8%N => Some "b"%char
  | 9%N => Some "t"%char
  | 10%N => Some "n"%char
  | 11%N => Some "v"%char
  | 12%N => Some "f"%char
  | 13%N => Some "r"%char
  | 27%N => Some "e"%char
  | 34%N => Some dquote
  | 92%N => Some "\"%char
  | 133%N => Some "N"%char
  | 160%N => Some "_"%char
  | _ => None
  end.

Definition unescape_letter (c : ascii) : option ascii :=
  match code c with
  | 48%N => Some (ascii_of_N 0)
  | 97%N => Some (ascii_of_N 7)
  | 98%N => Some (ascii_of_N 8)
  | 116%N => Some (ascii_of_N 9)
  | 110%N => Some (ascii_of_N 10)
  | 118%N => Some (ascii_of_N 11)
  | 102%N => Some (ascii_of_N 12)
  | 114%N => Some (ascii_of_N 13)
  | 101%N => Some (ascii_of_N 27)
  | 34%N => Some (ascii_of_N 34)
  | 92%N => Some (ascii_of_N 92)
  | 78%N => Some (ascii_of_N 133)
  | 95%N => Some (ascii_of_N 160)
  | _ => None
  end.

Fixpoint quote_double (s : string) : string :=
  match s with
  | EmptyString => EmptyString
  | String c s' =>
      match escape_letter c with
      | Some l => String "\" (String l (quote_double s'))
      | None =>
          if is_printable c then String c (quote_double s')
          else String "\" (String "x"
                 (String (hex_digit (code c / 16)) (String (hex_digit (code c mod 16))
                    (quote_double s'))))
      end
  end.

(** [represent_str] and the style the emitter chooses for it. *)
Definition emit_str (s : string) : string :=
  if plain_ok s then s
  else if str_forall is_printable s then "'" ++ quote_single s ++ "'"
  else String dquote (quote_double s ++ String dquote EmptyString).

Definition emit_int (z : Z) : string :=
  DecimalString.NilZero.string_of_int (Z.to_int z).

(** The text after an opening single quote: the string and what follows the
    closing quote. *)
Fixpoint scan_single (s : string) : option (string * string) :=
  match s with
  | EmptyString => None
  | String c s' =>
      if bool_decide (c = "'"%char) then
        match s' with
        | String c' s'' =>
            if bool_decide (c' = "'"%char) then
              '(r, rest) ← scan_single s''; Some (String "'" r, rest)
            else Some (EmptyString, s')
        | EmptyString => Some (EmptyString, EmptyString)
        end
      else if is_printable c then
        '(r, rest) ← scan_single s'; Some (String c r, rest)
      else None
  end.

(** The text after an opening double quote. *)
Fixpoint scan_double (s : string) : option (string * string) :=
  match s with
  | EmptyString => None
  | String c s' =>
      if bool_decide (c = dquote) then Some (EmptyString, s')
      else if bool_decide (c = "\"%char) then
        match s' with
        | String "x" (String h (String l s'')) =>
            hi ← hex_value h; lo ← hex_value l;
            '(r, rest) ← scan_double s'';
            Some (String (ascii_of_N (16 * hi + lo)) r, rest)
        | String e s'' =>
            c' ← unescape_letter e;
            '(r, rest) ← scan_double s'';
            Some (String c' r, rest)
        | EmptyString => None
        end
      else if is_printable c then
        '(r, rest) ← scan_double s'; Some (String c r, rest)
      else None
  end.

(** A plain key: up to the colon that a space or the end of the line
    follows.  Gives the key text and what follows that colon. *)
Fixpoint scan_plain_key (s : string) : option (string * string) :=
  match s with
  | EmptyString => None
  | String c s' =>
      if bool_decide (c = ":"%char)
         && match s' with
            | EmptyString => true
            | String c' _ => bool_decide (c' = " "%char)
            end
      then Some (EmptyString, s')
      else if is_plain_char c then
        '(r, rest) ← scan_plain_key s'; Some (String c r, rest)
      else None
  end.

(** *** Lines *)

Definition newline : ascii := ascii_of_N 10.

Fixpoint split_lines (s : string) : list string :=
  match s with
  | EmptyString => []
  | String c s' =>
      if bool_decide (c = newline) then EmptyString :: split_lines s'
      else match split_lines s' with
           | [] => [String c EmptyString]
           | l :: ls => String c l :: ls
           end
  end.

Fixpoint unlines (ls : list string) : string :=
  match ls with
  | [] => EmptyString
  | l :: ls' => l ++ String newline (unlines ls')
  end.

Fixpoint spaces (n : nat) : string :=
  match n with
  | 0 => EmptyString
  | S n' => String " " (spaces n')
  end.

Fixpoint strip_indent (s : string) : nat * string :=
  match s with
  | String " " s' => let '(n, r) := strip_indent s' in (S n, r)
  | _ => (0, s)
  end.

(** *** The emitter *)

Inductive rendering :=
  | Inline (txt : string)           (* written after [key: ] *)
  | Block (lines : list string).    (* written below [key:], indented *)

(** [sorted(mapping.items())]: insertion sort on the keys. *)
Fixpoint insert_sorted {A} (e : string * A) (l : list (string * A)) : list (string * A) :=
  match l with
  | [] => [e]
  | e' :: l' =>
      if String.leb e.1 e'.1 then e :: l else e' :: insert_sorted e l'
  end.

Definition sort_items {A} (l : list (string * A)) : list (string * A) :=
  foldr insert_sorted [] l.

Definition emit_item (indent : nat) (e : string * rendering) : list string :=
  match e.2 with
  | Inline txt => [emit_str e.1 ++ ": " ++ txt]
  | Block ls => (emit_str e.1 ++ ":") :: map (λ l, spaces indent ++ l) ls
  end.

Fixpoint represent (indent : nat) (v : value) : rendering :=
  match v with
  | VNull => Inline "null"
  | VBool b => Inline (if b then "true" else "false")
  | VInt z => Inline (emit_int z)
  | VStr s => Inline (emit_str s)
  | VDict m =>
      match map_fold (λ k x acc, (k, represent indent x) :: acc) [] m with
      | [] => Inline "{}"
      | items => Block (concat (map (emit_item indent) (sort_items items)))
      end
  end.

(** Modelled from the spec: [yaml.safe_dump] belongs to the YAML library, which
    is not part of the repository; the encoding is structured text, stable in
    its whitespace, with a fixed indentation.  A plain scalar at the root is
    followed by the document end marker. *)
Definition safe_dump (v : value) (indent : nat) : string :=
  match represent indent v with
  | Block ls => unlines ls
  | Inline txt =>
      match v with
      | VDict _ => txt ++ String newline EmptyString
      | VStr s =>
          if plain_ok s then txt ++ String newline ("..." ++ String newline EmptyString)
          else txt ++ String newline EmptyString
      | _ => txt ++ String newline ("..." ++ String newline EmptyString)
      end
  end.

(** *** The loader *)

Inductive rhs :=
  | RNested               (* nothing after the colon *)
  | RValue (v : value).

Definition parse_quoted (scan : string → option (string * string)) (s : string)
    : option value :=
  '(r, rest) ← scan s;
  if bool_decide (rest = EmptyString) then Some (VStr r) else None.

Definition parse_plain (s : string) : option value :=
  if bool_decide (s = "{}") then Some (VDict ∅)
  else if str_forall is_plain_char s
          && negb (bool_decide (str_last s = Some ":"%char))
  then resolve s
  else None.

Definition parse_value (s : string) : option value :=
  match s with
  | String c s' =>
      if bool_decide (c = "'"%char) then parse_quoted scan_single s'
      else if bool_decide (c = dquote) then parse_quoted scan_double s'
      else parse_plain s
  | EmptyString => None
  end.

(** The key of a line and the text after its colon. *)
Definition parse_quoted_key (scan : string → option (string * string)) (s : string)
    : option (string * string) :=
  '(k, rest) ← scan s;
  match rest with String ":" rest' => Some (k, rest') | _ => None end.

Definition parse_plain_key (s : string) : option (string * string) :=
  '(t, rest) ← scan_plain_key s;
  match resolve t with
  | Some (VStr k) => Some (k, rest)
  | _ => None
  end.

Definition parse_key (s : string) : option (string * string) :=
  match s with
  | String c s' =>
      if bool_decide (c = "'"%char) then parse_quoted_key scan_single s'
      else if bool_decide (c = dquote) then parse_quoted_key scan_double s'
      else parse_plain_key s
  | EmptyString => None
  end.

Definition parse_line (s : string) : option (nat * string * rhs) :=
  let '(n, content) := strip_indent s in
  '(k, after) ← parse_key content;
  match after with
  | EmptyString => Some (n, k, RNested)
  | String " " vtxt => v ← parse_value vtxt; Some (n, k, RValue v)
  | _ => None
  end.

(** The entries of the block mapping indented by [n], added to [acc] in
    document order (a repeated key keeps its last value), and the lines
    after the block. *)
Fixpoint parse_entries (fuel n : nat) (acc : gmap string value)
    (ls : list (nat * string * rhs))
    : option (gmap string value * list (nat * string * rhs)) :=
  match fuel with
  | 0 => None
  | S fuel' =>
      match ls with
      | [] => Some (acc, [])
      | (i, k, r) :: rest =>
          if (i <? n)%nat then Some (acc, ls)
          else if (n <? i)%nat then None
          else
            match r with
            | RValue v => parse_entries fuel' n (<[k := v]> acc) rest
            | RNested =>
                match rest with
                | (i', _, _) :: _ =>
                    if (n <? i')%nat then
                      '(sub, rest') ← parse_entries fuel' i' ∅ rest;
                      parse_entries fuel' n (<[k := VDict sub]> acc) rest'
                    else parse_entries fuel' n (<[k := VNull]> acc) rest
                | [] => Some (<[k := VNull]> acc, [])
                end
            end
      end
  end.

Definition is_blank (s : string) : bool := str_forall (λ c, bool_decide (c = " "%char)) s.

(** Modelled from the spec: [yaml.safe_load] belongs to the YAML library, which
    is not part of the repository.  Blank lines are skipped, and a text with
    no other line is the null document. *)
Definition safe_load (s : string) : option value :=
  let ls := filter (λ l, is_blank l = false) (split_lines s) in
  if bool_decide (ls = []) then Some VNull
  else if bool_decide (ls = ["{}"]) then Some (VDict ∅)
  else
    pls ← mapM parse_line ls;
    match parse_entries (S (length pls)) 0 ∅ pls with
    | Some (m, []) => Some (VDict m)
    | _ => None
    end.

Global Instance yaml : Yaml :=
  {| yaml_safe_load := safe_load; yaml_safe_dump := safe_dump |}.

End PyYaml.

(** * Vocabulary of the statements *)

(** What the requirer schema accepts: an object with the four fields, typed. *)
Definition requirer_record (m : gmap string value) : Prop :=
  (∃ s, m !! "model" = Some (VStr s)) ∧ (∃ s, m !! "name" = Some (VStr s))
  ∧ (∃ s, m !! "host" = Some (VStr s)) ∧ (∃ z, m !! "port" = Some (VInt z)).

(** What the provider schema accepts of one entry of [ingress]. *)
Definition ingress_entry (e : value) : Prop :=
  ∃ em, e = VDict em ∧ (∃ u, em !! "url" = Some (VStr u))
        ∧ (∀ x, em !! "_supported_versions" = Some x → ∃ s, x = VStr s).

Definition provider_aggregate (m : gmap string value) : Prop :=
  ∃ ing, m !! "ingress" = Some (VDict ing) ∧ map_Forall (λ _ e, ingress_entry e) ing.

Definition entry_schema : schema :=
  Schema (Some JObject)
    [("_supported_versions", Schema (Some JString) [] [] []);
     ("url", Schema (Some JString) [] [] [])]
    [] ["url"].

(** The aggregate [publish_url] reads before it validates it. *)
Definition read_aggregate {Y : Yaml} (c : Charm) (relation : Relation) : option value :=
  let raw_data := databag relation (AppE (this_app c)) !! "data" in
  if raw_truthy raw_data then yaml_safe_load (default "" raw_data)
  else Some (VDict {[ "ingress" := VDict ∅ ]}).

Definition url_entry (url : string) : value := VDict {[ "url" := VStr url ]}.

(** A valid aggregate after [data['ingress'][unit_name] = {'url': url}]. *)
Definition updated_aggregate (data : value) (unit_name url : string) : value :=
  match data with
  | VDict m =>
      match m !! "ingress" with
      | Some (VDict ing) =>
          VDict (<[ "ingress" := VDict (<[ unit_name := url_entry url ]> ing) ]> m)
      | _ => data
      end
  | _ => data
  end.

(** The contract of the YAML library that idempotence rests on: a mapping
    that was dumped loads back as itself, and a dump is never the empty text. *)
Class YamlRoundTrip (Y : Yaml) : Prop := {
  load_dump : ∀ m : gmap string value,
    yaml_safe_load (yaml_safe_dump (VDict m) 2) = Some (VDict m);
  dump_nonempty : ∀ v : value, yaml_safe_dump v 2 ≠ "";
}.

(** The two sides of a relation share its databags, and each has the other as
    the remote application: [seen] is the relation a charm holds when the
    charm of the other side holds [relation]. *)
Definition same_databags (relation seen : Relation) : Prop :=
  rel_data seen = rel_data relation.

(** A requirer whose established relation is [relation] seen from its side,
    with [provider_app] as the remote application, and which got no
    relation-broken notification. *)
Definition requirer_sees (self : IngressPerUnitRequirer.t)
    (provider_app : Application) (relation : Relation) : Prop :=
  IngressPerUnitRequirer.is_relation_broken self = false
  ∧ ∃ seen, IngressPerUnitRequirer.relation self = Some seen
      ∧ rel_app seen = Some provider_app
      ∧ same_databags relation seen.

(** The URL of an entry of [ingress], [unit_data["url"]]. *)
Definition entry_url (unit_data : value) : option value :=
  match py_getitem unit_data "url" with
  | Return u => Some u
  | Raise _ => None
  end.

(** The URLs of a valid aggregate, by unit name. *)
Definition aggregate_urls (data : value) : gmap string value :=
  match data with
  | VDict m =>
      match m !! "ingress" with
      | Some (VDict ing) => omap entry_url ing
      | _ => ∅
      end
  | _ => ∅
  end.

(** The provider partition is absent, empty, or holds a valid aggregate:
    [publish_url] has something to add an entry to. *)
Definition publishable {Y : Yaml} (c : Charm) (relation : Relation) : Prop :=
  ∃ data, read_aggregate c relation = Some data
          ∧ is_valid INGRESS_PROVIDES_APP_SCHEMA data = true.

(** What [_fetch_relation_data] keeps for one remote unit: [{}] for a unit
    with no or empty data, the loaded document otherwise, which has passed the
    requirer schema when validation was asked for. *)
Definition unit_record {Y : Yaml} (relation : Relation) (validate : bool)
    (u : Unit) (d : value) : Prop :=
  let raw := databag relation (UnitE u) !! "data" in
  if raw_truthy raw then
    yaml_safe_load (default "" raw) = Some d
    ∧ (validate = true → is_valid INGRESS_REQUIRES_UNIT_SCHEMA d = true)
  else d = VDict ∅.

(** The remote units of a relation, as the provider charm [c] sees them. *)
Definition remote_units (c : Charm) (relation : Relation) : list Unit :=
  filter (λ u, unit_app u ≠ this_app c) (rel_units relation).

(** The model a unit record reports. *)
Definition model_of (d : value) : option string :=
  match d with
  | VDict m => match m !! "model" with Some (VStr s) => Some s | _ => None end
  | _ => None
  end.

(** The host [_publish_ingress_data] sends: the given one, or the bind address
    of the unit when none, or an empty one, is given. *)
Definition published_host (c : Charm) (host : option string) : string :=
  if raw_truthy host then default "" host else bind_address c.

(** The record a requirer unit publishes for [host] and [port]. *)
Definition published_record (c : Charm) (host : option string) (port : Z) : value :=
  RequirerData (model_name c) (unit_name (this_unit c)) (published_host c host) port.

(** A method keeps a property of the object it runs on, whether it returns or
    raises. *)
Definition preserves {S A} (P : S → Prop) (m : M S A) : Prop :=
  ∀ s, P s → P (m s).2.









(** The three status events of [_handle_relation]. *)
Definition is_status_event (e : event) : bool :=
  match e with
  | ready _ | available _ | failed _ => true
  | _ => false
  end.

(** The status event one pass raises, from the outcomes of [is_ready],
    [is_available] and [is_failed], consulted in that order. *)
Definition status_by_priority (relation : Relation) (rd av fl : result bool) : list event :=
  match rd with
  | Return true => [ready relation]
  | Return false =>
      match av with
      | Return true => [available relation]
      | Return false =>
          match fl with
          | Return true => [failed relation]
          | _ => []
          end
      | Raise _ => []
      end
  | Raise _ => []
  end.

(** A relation whose remote application is not resolved. *)
Definition unresolved (relation : Relation) : Prop :=
  match rel_app relation with
  | None => True
  | Some a => app_name a = ""
  end.

Definition is_DataValidationError (e : exn) : bool :=
  match e with DataValidationError _ _ => true | _ => false end.

Definition raises_DataValidationError {A} (r : result A) : Prop :=
  match r with Raise e => is_DataValidationError e = true | Return _ => False end.

(** ** Vocabulary of the YAML round trip *)

Module PyYamlSpec.
Import PyYaml.

(** The text [quote_double] writes for one character. *)
Definition escape_char (c : ascii) : string :=
  match escape_letter c with
  | Some l => String "\" (String l EmptyString)
  | None =>
      if is_printable c then String c EmptyString
      else String "\" (String "x"
             (String (hex_digit (code c / 16)) (String (hex_digit (code c mod 16)) EmptyString)))
  end.

(** What may follow the colon of a key. *)
Definition after_colon (rest : string) : Prop :=
  match rest with
  | EmptyString => True
  | String c _ => c = " "%char
  end.

(** A text with no line break in it. *)
Definition no_nl (s : string) : bool :=
  str_forall (λ c, negb (bool_decide (c = newline))) s.

(** A parsed line: its indentation, its key and what follows the colon. *)
Abbreviation pline := (nat * string * rhs)%type.

(** A parsed line, indented by [n] more. *)
Definition shift (n : nat) (pl : pline) : pline := (n + pl.1.1, pl.1.2, pl.2).

(** The lines that follow a block indented by [n] start left of it. *)
Definition below (n : nat) (rest : list pline) : Prop :=
  match rest with
  | [] => True
  | pl :: _ => pl.1.1 < n
  end.

(** Parsed lines whose first one is not indented. *)
Definition at_margin (pls : list pline) : Prop :=
  match pls with
  | [] => True
  | pl :: _ => pl.1.1 = 0
  end.

(** A line of a block mapping: no line break, and a colon. *)
Definition good_line (l : string) : Prop := no_nl l = true ∧ str_count ":" l ≠ 0.

(** [mapping[key] = value], as [construct_mapping] does for each entry. *)
Definition put_item (acc : gmap string value) (e : string * value) : gmap string value :=
  <[e.1 := e.2]> acc.

(** The lines [ls] are read back, at any indentation, as the mapping [sub]. *)
Definition block_parses (ls : list string) (sub : gmap string value) : Prop :=
  Forall good_line ls
  ∧ ∃ pls, Forall2 (λ l pl, parse_line l = Some pl) ls pls
      ∧ pls ≠ [] ∧ at_margin pls
      ∧ ∀ n fuel rest, length pls < fuel → below n rest →
          parse_entries fuel n ∅ ((shift n <$> pls) ++ rest) = Some (sub, rest).

(** A rendering is read back as the value [x]. *)
Definition renders (r : rendering) (x : value) : Prop :=
  match r with
  | Inline txt => parse_value txt = Some x ∧ no_nl txt = true
  | Block ls => ∃ sub, x = VDict sub ∧ block_parses ls sub
  end.

(** The lines of a list of items, in the order of the list. *)
Definition item_lines (indent : nat) (L : list (string * value)) : list string :=
  concat (emit_item indent <$> (prod_map id (represent indent) <$> L)).

(** The nesting size of a value, to reason by induction through its
    dictionaries. *)
Fixpoint value_size (v : value) : nat :=
  match v with
  | VDict m => S (map_fold (λ _ x acc, value_size x + acc) 0 m)
  | _ => 0
  end.

End PyYamlSpec.

(** ** Concrete charms and relations *)

Module Examples.

Definition traefik : Application := {| app_name := "traefik" |}.
Definition web : Application := {| app_name := "web" |}.
Definition traefik_0 : Unit := {| unit_name := "traefik/0"; unit_app := traefik |}.
Definition traefik_1 : Unit := {| unit_name := "traefik/1"; unit_app := traefik |}.
Definition web_0 : Unit := {| unit_name := "web/0"; unit_app := web |}.
Definition web_1 : Unit := {| unit_name := "web/1"; unit_app := web |}.

(** The provider charm, on its leader and on another unit. *)
Definition leader : Charm :=
  {| this_app := traefik; this_unit := traefik_0; is_leader := true;
     model_name := "m0"; bind_address := "10.0.0.1" |}.
Definition follower : Charm :=
  {| this_app := traefik; this_unit := traefik_1; is_leader := false;
     model_name := "m0"; bind_address := "10.0.0.9" |}.

(** The requirer charm, on unit [web/0]. *)
Definition web_charm : Charm :=
  {| this_app := web; this_unit := web_0; is_leader := true;
     model_name := "m1"; bind_address := "10.0.0.2" |}.

Definition mk_relation (a : option Application) (us : list Unit)
    (d : list (Entity * list (string * string))) : Relation :=
  {| rel_name := "ingress-per-unit"; rel_id := 7; rel_app := a; rel_units := us;
     rel_data := list_to_map ((λ '(e, kvs), (e, list_to_map kvs)) <$> d) |}.

(** Nothing published yet. *)
Definition fresh_relation : Relation :=
  mk_relation (Some web) [web_0; web_1] [].

(** Two requirer units that report the models [m1] and [m2]. *)
Definition web_0_data : string :=
"host: 10.0.0.2
model: m1
name: web/0
port: 80
".
Definition web_1_data : string :=
"host: 10.0.0.3
model: m2
name: web/1
port: 80
".
Definition mismatch_relation : Relation :=
  mk_relation (Some web) [web_0; web_1]
    [(UnitE web_0, [("data", web_0_data)]); (UnitE web_1, [("data", web_1_data)])].

(** Two requirer units that report the same model. *)
Definition web_1_same_model : string :=
"host: 10.0.0.3
model: m1
name: web/1
port: 80
".
Definition agreeing_relation : Relation :=
  mk_relation (Some web) [web_0; web_1]
    [(UnitE web_0, [("data", web_0_data)]);
     (UnitE web_1, [("data", web_1_same_model)])].

(** A requirer unit whose text is not YAML, seen from the provider and from
    the requirer. *)
Definition unparseable_relation : Relation :=
  mk_relation (Some web) [web_0] [(UnitE web_0, [("data", "{")])].
Definition unparseable_own_relation : Relation :=
  mk_relation (Some traefik) [traefik_0] [(UnitE web_0, [("data", "{")])].

(** A provider partition that is YAML but not an aggregate: [ingress] is an
    integer. *)
Definition corrupt_data : string :=
"ingress: 5
".
Definition corrupt_relation : Relation :=
  mk_relation (Some web) [web_0] [(AppE traefik, [("data", corrupt_data)])].

(** A provider partition with one URL, seen from the requirer: the remote
    application is [traefik]. *)
Definition published_data : string :=
"ingress:
  web/0:
    url: http://traefik/m1-web-0
".
Definition published_relation : Relation :=
  mk_relation (Some traefik) [traefik_0] [(AppE traefik, [("data", published_data)])].

(** The corrupt partition, seen from the requirer. *)
Definition corrupt_published_relation : Relation :=
  mk_relation (Some traefik) [traefik_0] [(AppE traefik, [("data", corrupt_data)])].

(** The provider has published nothing yet. *)
Definition waiting_relation : Relation :=
  mk_relation (Some traefik) [traefik_0] [].

(** The remote application is there, with an empty name. *)
Definition nameless_relation : Relation :=
  mk_relation (Some {| app_name := "" |}) [] [(AppE traefik, [("data", published_data)])].

(** The same relation while it breaks: the remote application is gone. *)
Definition breaking_relation : Relation :=
  mk_relation None [] [(AppE traefik, [("data", published_data)])].

Definition provider (c : Charm) (rels : list Relation) : IngressPerUnitProvider.t :=
  {| IngressPerUnitProvider.charm := c;
     IngressPerUnitProvider.relations := rels;
     IngressPerUnitProvider.on := [] |}.

Definition requirer (rels : list Relation) : IngressPerUnitRequirer.t :=
  IngressPerUnitRequirer.__init__ web_charm rels None (Some 80%Z).

End Examples.

(** * Properties *)

(** ** Schema validation *)

Lemma map_fold_andb {A} (f : string → A → bool) (m : gmap string A) :
  map_fold (λ k x acc, acc && f k x) true m = true
  ↔ map_Forall (λ k x, f k x = true) m.
Proof.
  induction m as [|k x m Hk Hfold IH] using map_first_key_ind.
  - rewrite map_fold_empty. split; [intros _; apply map_Forall_empty | done].
  - rewrite map_fold_insert_first_key by done.
    rewrite map_Forall_insert by done.
    rewrite andb_true_iff, IH. tauto.
Qed.

Lemma is_valid_string v :
  is_valid (Schema (Some JString) [] [] []) v = true ↔ ∃ s, v = VStr s.
Proof.
  destruct v; simpl; split; try done; try (intros [? [=]]); eauto.
Qed.

Lemma is_valid_integer v :
  is_valid (Schema (Some JInteger) [] [] []) v = true ↔ ∃ z, v = VInt z.
Proof.
  destruct v; simpl; split; try done; try (intros [? [=]]); eauto.
Qed.

(** Case analysis on a looked-up field inside a validity hypothesis. *)
Ltac field_cases H m k :=
  let E := fresh "E" in
  destruct (m !! k) as [[| | | |?]|] eqn:E; cbn in H; try discriminate H.

Lemma is_valid_requires v :
  is_valid INGRESS_REQUIRES_UNIT_SCHEMA v = true
  ↔ ∃ m, v = VDict m ∧ requirer_record m.
Proof.
  unfold requirer_record. split.
  - destruct v as [| | | |m]; try done. intros H. exists m. split; [done|].
    cbn in H.
    field_cases H m "model"; field_cases H m "name";
      field_cases H m "host"; field_cases H m "port".
    eauto 10.
  - intros (m & -> & (? & H1) & (? & H2) & (? & H3) & (? & H4)).
    cbn. rewrite H1, H2, H3, H4. done.
Qed.

Lemma is_valid_entry e : is_valid entry_schema e = true ↔ ingress_entry e.
Proof.
  unfold ingress_entry. split.
  - destruct e as [| | | |em]; try done. intros H. exists em. split; [done|].
    cbn in H.
    field_cases H em "url"; field_cases H em "_supported_versions";
      (split; [eauto|]); intros x [= <-]; eauto.
  - intros (em & -> & (u & Hu) & Hs). cbn. rewrite Hu.
    destruct (em !! "_supported_versions") as [x|] eqn:Hx; [|done].
    destruct (Hs x eq_refl) as [s ->]. done.
Qed.

Lemma re_search_empty k : re_search "" k = true.
Proof. unfold re_search. by destruct k. Qed.

Lemma is_valid_provides_eq m :
  is_valid INGRESS_PROVIDES_APP_SCHEMA (VDict m)
  = match m !! "ingress" with
    | Some (VDict ing) =>
        map_fold (λ k e acc,
          acc && (if re_search "" k then is_valid entry_schema e else true)) true ing
    | _ => false
    end.
Proof.
  cbn. destruct (m !! "ingress") as [[| | | |ing]|]; cbn; try done.
  by rewrite !andb_true_r.
Qed.

Lemma is_valid_provides v :
  is_valid INGRESS_PROVIDES_APP_SCHEMA v = true
  ↔ ∃ m, v = VDict m ∧ provider_aggregate m.
Proof.
  unfold provider_aggregate. split.
  - destruct v as [| | | |m]; try done. rewrite is_valid_provides_eq.
    intros H. exists m. split; [done|].
    destruct (m !! "ingress") as [[| | | |ing]|] eqn:E; try discriminate H.
    eexists; split; [done|].
    apply (map_fold_andb (λ k e, if re_search "" k then is_valid entry_schema e else true)) in H.
    eapply map_Forall_impl; [eassumption|]. intros k e He. cbv beta in He.
    rewrite re_search_empty in He. by apply is_valid_entry.
  - intros (m & -> & ing & Hing & Hall). rewrite is_valid_provides_eq, Hing.
    apply (map_fold_andb (λ k e, if re_search "" k then is_valid entry_schema e else true)).
    eapply map_Forall_impl; [eassumption|]. intros k e He. cbv beta.
    rewrite re_search_empty. by apply is_valid_entry.
Qed.

(** ** Writes to a databag *)

Lemma databag_relation_set relation e key val e' :
  databag (relation_set relation e key val) e'
  = if decide (e = e') then <[key := val]> (databag relation e) else databag relation e'.
Proof.
  unfold databag at 1. cbn. rewrite lookup_insert. by case_decide.
Qed.

Lemma relation_set_id relation e key val :
  is_Some (rel_data relation !! e) →
  databag relation e !! key = Some val →
  relation_set relation e key val = relation.
Proof.
  intros [b Hb] Hval. destruct relation as [n i a us d]. unfold relation_set, databag in *.
  cbn in *. f_equal. rewrite Hb in *. cbn in *. rewrite (insert_id b) by done.
  by rewrite insert_id.
Qed.

Lemma relation_set_twice relation e key val :
  relation_set (relation_set relation e key val) e key val
  = relation_set relation e key val.
Proof.
  apply relation_set_id.
  - cbn. rewrite lookup_insert_eq. eauto.
  - rewrite databag_relation_set. rewrite decide_True by done. apply lookup_insert_eq.
Qed.

Lemma leader_is_mutable c : is_leader c = true → is_mutable c (AppE (this_app c)) = true.
Proof. intros H. cbn. rewrite H. by rewrite bool_decide_eq_true_2. Qed.

Lemma non_leader_is_mutable c : is_leader c = false → is_mutable c (AppE (this_app c)) = false.
Proof. intros H. cbn. rewrite H. apply andb_false_r. Qed.

(** ** The provider's full publish *)

(** C10. [publish_ingress_data] changes the relation only when it returns:
    a unit that is not the leader gets [RelationPermissionError] with the
    relation untouched, a leader whose wrapped aggregate fails the provider
    schema gets [DataValidationError] with the relation untouched, and the write
    of the serialized aggregate happens only for a leader whose wrapped
    aggregate is valid. *)
Theorem publish_ingress_data_atomic {Y : Yaml} (c : Charm) (data : value)
    (relation : Relation) :
  let wrapped := VDict {[ "ingress" := data ]} in
  match IngressPerUnitProvider.publish_ingress_data c data relation with
  | (Raise e, relation') =>
      relation' = relation
      ∧ (if is_leader c
         then e = DataValidationError wrapped INGRESS_PROVIDES_APP_SCHEMA
              ∧ is_valid INGRESS_PROVIDES_APP_SCHEMA wrapped = false
         else e = RelationPermissionError relation (this_unit c)
                    "This unit is not the leader")
  | (Return _, relation') =>
      is_leader c = true
      ∧ is_valid INGRESS_PROVIDES_APP_SCHEMA wrapped = true
      ∧ relation' = relation_set relation (AppE (this_app c)) "data"
                      (_serialize_data wrapped)
  end.
Proof.
  intros wrapped.
  unfold IngressPerUnitProvider.publish_ingress_data, mbind, M_bind, get, raise, lift,
    _validate_data, databag_setitem.
  subst wrapped.
  destruct (is_leader c) eqn:Hl; cbn [negb]; [|done].
  destruct (is_valid INGRESS_PROVIDES_APP_SCHEMA _) eqn:Hv; [|done].
  rewrite leader_is_mutable by done. done.
Qed.

(** The three outcomes, on a fresh relation. *)
Example publish_ingress_data_outcomes :
  IngressPerUnitProvider.publish_ingress_data (Y := PyYaml.yaml) Examples.follower
    (VDict {[ "web/0" := url_entry "http://traefik/m1-web-0" ]}) Examples.fresh_relation
  = (Raise (RelationPermissionError Examples.fresh_relation Examples.traefik_1
              "This unit is not the leader"),
     Examples.fresh_relation)
  ∧ IngressPerUnitProvider.publish_ingress_data (Y := PyYaml.yaml) Examples.leader
      (VDict {[ "web/0" := VStr "http://traefik/m1-web-0" ]}) Examples.fresh_relation
    = (Raise (DataValidationError
                (VDict {[ "ingress" :=
                   VDict {[ "web/0" := VStr "http://traefik/m1-web-0" ]} ]})
                INGRESS_PROVIDES_APP_SCHEMA),
       Examples.fresh_relation)
  ∧ IngressPerUnitProvider.publish_ingress_data (Y := PyYaml.yaml) Examples.leader
      (VDict {[ "web/0" := url_entry "http://traefik/m1-web-0" ]}) Examples.fresh_relation
    = (Return tt,
       relation_set Examples.fresh_relation (AppE Examples.traefik) "data"
         Examples.published_data).
Proof. repeat split; vm_compute; reflexivity. Qed.

(** ** [publish_url] *)

Lemma set_ingress_valid {Y : Yaml} data unit_name url :
  is_valid INGRESS_PROVIDES_APP_SCHEMA data = true →
  IngressPerUnitProvider.set_ingress data unit_name (url_entry url)
  = Return (updated_aggregate data unit_name url).
Proof.
  intros (m & -> & ing & Hing & _)%is_valid_provides.
  unfold IngressPerUnitProvider.set_ingress, updated_aggregate. cbn. by rewrite Hing.
Qed.

Lemma ingress_entry_url url : ingress_entry (url_entry url).
Proof.
  exists {[ "url" := VStr url ]}. split; [done|]. split; [by exists url|].
  intros x Hx. by rewrite lookup_singleton_ne in Hx.
Qed.

Lemma updated_aggregate_valid data unit_name url :
  is_valid INGRESS_PROVIDES_APP_SCHEMA data = true →
  is_valid INGRESS_PROVIDES_APP_SCHEMA (updated_aggregate data unit_name url) = true.
Proof.
  intros (m & -> & ing & Hing & Hall)%is_valid_provides.
  apply is_valid_provides. unfold updated_aggregate. rewrite Hing.
  eexists. split; [done|]. eexists. split; [apply lookup_insert_eq|].
  apply map_Forall_insert_2; [apply ingress_entry_url | done].
Qed.

Lemma updated_aggregate_idem data unit_name url :
  updated_aggregate (updated_aggregate data unit_name url) unit_name url
  = updated_aggregate data unit_name url.
Proof.
  destruct data as [| | | |m]; try done. cbn.
  destruct (m !! "ingress") as [[| | | |ing]|] eqn:E; cbn; rewrite ?E; try done.
  rewrite lookup_insert_eq. by rewrite !insert_insert_eq.
Qed.

(** [publish_url], case by case. *)
Lemma publish_url_eq {Y : Yaml} c unit_name url relation :
  IngressPerUnitProvider.publish_url c unit_name url relation
  = match read_aggregate c relation with
    | None => (Raise YAMLError, relation)
    | Some data =>
        if is_valid INGRESS_PROVIDES_APP_SCHEMA data then
          if is_leader c then
            (Return tt,
             relation_set relation (AppE (this_app c)) "data"
               (_serialize_data (updated_aggregate data unit_name url)))
          else (Raise RelationDataError, relation)
        else (Return tt, relation)
    end.
Proof.
  unfold IngressPerUnitProvider.publish_url, read_aggregate, _deserialize_data.
  unfold mbind, M_bind, get, lift, raise, IngressPerUnitProvider.log_error, mret, M_ret.
  set (raw := databag relation (AppE (this_app c)) !! "data").
  change (VDict {[ "url" := VStr url ]}) with (url_entry url).
  assert (∀ data,
    match _validate_data data INGRESS_PROVIDES_APP_SCHEMA with
    | Return _ => λ s, match IngressPerUnitProvider.set_ingress data unit_name
                               (url_entry url) with
                       | Return a => databag_setitem c (AppE (this_app c)) "data"
                                       (_serialize_data a) s
                       | Raise e => (Raise e, s)
                       end
    | Raise (DataValidationError _ _) => λ s, (Return tt, s)
    | Raise e => λ s, (Raise e, s)
    end relation
    = if is_valid INGRESS_PROVIDES_APP_SCHEMA data then
        if is_leader c then
          (Return tt,
           relation_set relation (AppE (this_app c)) "data"
             (_serialize_data (updated_aggregate data unit_name url)))
        else (Raise RelationDataError, relation)
      else (Return tt, relation)) as Hbody.
  { intros data. unfold _validate_data.
    destruct (is_valid INGRESS_PROVIDES_APP_SCHEMA data) eqn:Hv; [|done].
    rewrite set_ingress_valid by done. unfold databag_setitem.
    destruct (is_leader c) eqn:Hl.
    - by rewrite leader_is_mutable.
    - by rewrite non_leader_is_mutable. }
  destruct (raw_truthy raw).
  - destruct (yaml_safe_load (default "" raw)) as [data|]; [|done].
    apply Hbody.
  - apply Hbody.
Qed.

(** C3 (as amended).  When the provider partition is absent or empty, a leader's
    [publish_url] starts from the empty aggregate and writes the serialization of
    [{ingress: {unit_name: {url: url}}}] to the provider partition.  When the
    stored document deserializes but fails the provider schema, [publish_url]
    returns without writing: the relation is left as it was. *)
Theorem publish_url_absent_or_corrupt {Y : Yaml} (c : Charm) (unit_name url : string)
    (relation : Relation) :
  let raw_data := databag relation (AppE (this_app c)) !! "data" in
  (raw_truthy raw_data = false → is_leader c = true →
     IngressPerUnitProvider.publish_url c unit_name url relation
     = (Return tt,
        relation_set relation (AppE (this_app c)) "data"
          (_serialize_data
             (VDict {[ "ingress" := VDict {[ unit_name := url_entry url ]} ]}))))
  ∧ (∀ data,
       raw_truthy raw_data = true →
       yaml_safe_load (default "" raw_data) = Some data →
       is_valid INGRESS_PROVIDES_APP_SCHEMA data = false →
       IngressPerUnitProvider.publish_url c unit_name url relation
       = (Return tt, relation)).
Proof.
  intros raw_data. split.
  - intros Hraw Hl. rewrite publish_url_eq. unfold read_aggregate.
    fold raw_data. rewrite Hraw, Hl.
    assert (is_valid INGRESS_PROVIDES_APP_SCHEMA (VDict {[ "ingress" := VDict ∅ ]}) = true)
      as -> by done.
    unfold updated_aggregate. rewrite lookup_singleton_eq.
    rewrite insert_singleton_eq. by rewrite insert_empty.
  - intros data Hraw Hload Hv. rewrite publish_url_eq. unfold read_aggregate.
    fold raw_data. by rewrite Hraw, Hload, Hv.
Qed.

(** C3, witness: the leader publishes on a fresh relation, and on a corrupt
    one. *)
Lemma publish_url_absent_or_corrupt_witness :
  IngressPerUnitProvider.publish_url (Y := PyYaml.yaml) Examples.leader
    "web/0" "http://traefik/m1-web-0" Examples.fresh_relation
  = (Return tt,
     relation_set Examples.fresh_relation (AppE Examples.traefik) "data"
       Examples.published_data)
  ∧ IngressPerUnitProvider.publish_url (Y := PyYaml.yaml) Examples.leader
      "web/0" "http://traefik/m1-web-0" Examples.corrupt_relation
    = (Return tt, Examples.corrupt_relation).
Proof.
  split.
  - refine (eq_trans
      (proj1 (publish_url_absent_or_corrupt (Y := PyYaml.yaml) Examples.leader
                "web/0" "http://traefik/m1-web-0" Examples.fresh_relation) _ _) _);
      vm_compute; reflexivity.
  - apply (proj2 (publish_url_absent_or_corrupt (Y := PyYaml.yaml) Examples.leader
                    "web/0" "http://traefik/m1-web-0" Examples.corrupt_relation)
             (VDict {[ "ingress" := VInt 5 ]}));
      vm_compute; reflexivity.
Defined.

(** C3, counterexample: the stored document fails the provider schema, and
    [publish_url] by the leader writes nothing: the partition still holds the
    corrupt document, not an aggregate with the new entry. *)
Lemma publish_url_corrupt_not_written :
  let relation' :=
    (IngressPerUnitProvider.publish_url (Y := PyYaml.yaml) Examples.leader
       "web/0" "http://traefik/m1-web-0" Examples.corrupt_relation).2 in
  (_deserialize_data (Y := PyYaml.yaml) Examples.corrupt_data
     ≫= λ d, _validate_data d INGRESS_PROVIDES_APP_SCHEMA)
  = Raise (DataValidationError (VDict {[ "ingress" := VInt 5 ]})
             INGRESS_PROVIDES_APP_SCHEMA)
  ∧ databag relation' (AppE Examples.traefik) !! "data" = Some Examples.corrupt_data
  ∧ databag relation' (AppE Examples.traefik) !! "data"
    ≠ Some (_serialize_data (Y := PyYaml.yaml)
              (VDict {[ "ingress" := VDict {[ "web/0" := url_entry "http://traefik/m1-web-0" ]} ]})).
Proof. repeat split; vm_compute; congruence. Qed.

(** C4 (as amended).  [publish_url] has no leadership check: it never raises
    [RelationPermissionError].  Called by a unit that is not the leader it
    leaves the relation as it was: it returns early on a corrupt databag,
    propagates the YAML error of an unreadable one, or has its write refused by
    the framework with [RelationDataError]. *)
Theorem publish_url_non_leader {Y : Yaml} (c : Charm) (unit_name url : string)
    (relation : Relation) :
  is_leader c = false →
  let '(r, relation') := IngressPerUnitProvider.publish_url c unit_name url relation in
  relation' = relation
  ∧ (r = Return tt ∨ r = Raise YAMLError ∨ r = Raise RelationDataError)
  ∧ ∀ rel entity message, r ≠ Raise (RelationPermissionError rel entity message).
Proof.
  intros Hl. rewrite publish_url_eq, Hl.
  destruct (read_aggregate c relation) as [data|]; [|by eauto].
  destruct (is_valid _ data); by eauto.
Qed.

(** C4, witness: a unit that is not the leader publishes on a fresh
    relation. *)
Lemma publish_url_non_leader_witness :
  let '(r, relation') :=
    IngressPerUnitProvider.publish_url (Y := PyYaml.yaml) Examples.follower
      "web/0" "http://traefik/m1-web-0" Examples.fresh_relation in
  relation' = Examples.fresh_relation
  ∧ (r = Return tt ∨ r = Raise YAMLError ∨ r = Raise RelationDataError)
  ∧ ∀ rel entity message, r ≠ Raise (RelationPermissionError rel entity message).
Proof.
  apply (publish_url_non_leader (Y := PyYaml.yaml) Examples.follower
           "web/0" "http://traefik/m1-web-0" Examples.fresh_relation).
  reflexivity.
Defined.

(** C4, counterexample: what a unit that is not the leader gets from
    [publish_url] is the framework's [RelationDataError], not
    [RelationPermissionError]. *)
Lemma publish_url_non_leader_no_permission_error :
  IngressPerUnitProvider.publish_url (Y := PyYaml.yaml) Examples.follower
    "web/0" "http://traefik/m1-web-0" Examples.fresh_relation
  = (Raise RelationDataError, Examples.fresh_relation)
  ∧ ¬ ∃ rel entity message,
        (IngressPerUnitProvider.publish_url (Y := PyYaml.yaml) Examples.follower
           "web/0" "http://traefik/m1-web-0" Examples.fresh_relation).1
        = Raise (RelationPermissionError rel entity message).
Proof.
  split; [vm_compute; reflexivity|]. intros (rel & entity & message & H).
  vm_compute in H. discriminate H.
Qed.

(** C8.  A second [publish_url] with the same unit name and URL leaves the
    relation, and so the aggregate stored in the provider partition, exactly as
    the first call left it, with the same outcome. *)
Theorem publish_url_idempotent {Y : Yaml} (c : Charm) (unit_name url : string)
    (relation relation1 : Relation) (r : result unit) :
  YamlRoundTrip Y →
  IngressPerUnitProvider.publish_url c unit_name url relation = (r, relation1) →
  IngressPerUnitProvider.publish_url c unit_name url relation1 = (r, relation1).
Proof.
  intros HY. rewrite publish_url_eq. intros H1.
  destruct (read_aggregate c relation) as [data|] eqn:Hread.
  2: { injection H1 as <- <-. by rewrite publish_url_eq, Hread. }
  destruct (is_valid INGRESS_PROVIDES_APP_SCHEMA data) eqn:Hv.
  2: { injection H1 as <- <-. by rewrite publish_url_eq, Hread, Hv. }
  destruct (is_leader c) eqn:Hl.
  2: { injection H1 as <- <-. by rewrite publish_url_eq, Hread, Hv, Hl. }
  injection H1 as <- <-. rewrite publish_url_eq.
  pose proof (updated_aggregate_valid data unit_name url Hv) as Hv'.
  destruct (proj1 (is_valid_provides _) Hv') as (m' & Hm' & _).
  assert (read_aggregate c
            (relation_set relation (AppE (this_app c)) "data"
               (_serialize_data (updated_aggregate data unit_name url)))
          = Some (updated_aggregate data unit_name url)) as ->.
  { unfold read_aggregate. rewrite databag_relation_set, decide_True by done.
    rewrite lookup_insert_eq. cbn [raw_truthy default].
    unfold _serialize_data.
    destruct (yaml_safe_dump _ 2) eqn:Hd; [by apply dump_nonempty in Hd|].
    cbn [str_truthy]. rewrite <- Hd, Hm'. apply load_dump. }
  rewrite Hv', Hl, updated_aggregate_idem. by rewrite relation_set_twice.
Qed.

(** ** Teardown on the requirer *)

(** C7.  Once the requirer has handled a relation-broken notification its
    [is_relation_broken] flag is set and [urls] is the empty mapping, whatever
    the relations still hold: the handlers leave the databags as they were. *)
Theorem urls_empty_after_relation_broken {Y : Yaml} (self : IngressPerUnitRequirer.t)
    (r : Relation) :
  let '(res, self') := IngressPerUnitRequirer.dispatch (relation_broken r) self in
  res = Return tt
  ∧ IngressPerUnitRequirer.relations self' = IngressPerUnitRequirer.relations self
  ∧ IngressPerUnitRequirer.is_relation_broken self' = true
  ∧ IngressPerUnitRequirer.urls self' = Return ∅.
Proof.
  cbn. repeat split; try done.
  unfold IngressPerUnitRequirer.urls, IngressPerUnitRequirer.relation. cbn.
  by destruct (IngressPerUnitRequirer.relations self).
Qed.

(** The flag is what empties [urls]: the same stale partition is readable
    before the notification. *)
Example urls_before_and_after_teardown :
  let self := Examples.requirer [Examples.published_relation] in
  IngressPerUnitRequirer.urls self
    = Return {[ "web/0" := VStr "http://traefik/m1-web-0" ]}
  ∧ IngressPerUnitRequirer.urls
      (IngressPerUnitRequirer.dispatch
         (relation_broken Examples.published_relation) self).2
    = Return ∅.
Proof. split; vm_compute; reflexivity. Qed.

(** ** Unresolved remote application *)

Lemma base_is_ready_unresolved relation :
  unresolved relation → _IngressPerUnitBase.is_ready_rel relation = Return false.
Proof.
  unfold unresolved, _IngressPerUnitBase.is_ready_rel.
  destruct (rel_app relation) as [a|]; [|done]. by intros ->.
Qed.

(** [is_ready] is false on an unresolved relation, on the base and on both
    roles, whatever the databags hold. *)
Lemma is_ready_unresolved {Y : Yaml} relation :
  unresolved relation →
  (∀ f rels, _IngressPerUnitBase.is_ready f rels (Some relation) = Return false)
  ∧ (∀ self, IngressPerUnitProvider.is_ready self (Some relation) = Return false)
  ∧ (∀ self, IngressPerUnitRequirer.is_ready self (Some relation) = Return false).
Proof.
  intros H. repeat split; intros; cbn;
    unfold IngressPerUnitProvider.is_ready_rel;
    by rewrite (base_is_ready_unresolved _ H).
Qed.

(** [is_available] is false when the remote application is there with an empty
    name. *)
Lemma is_available_empty_name relation a rels :
  rel_app relation = Some a → app_name a = "" →
  _IngressPerUnitBase.is_available rels (Some relation) = Return false.
Proof.
  intros Ha Hn. cbn. unfold _IngressPerUnitBase.is_available_rel. by rewrite Ha, Hn.
Qed.

(** C6, at the failing input.  On a relation whose remote application is
    absent, [is_ready] is false on the base and on both roles, but
    [is_available] raises [AttributeError]: it reads [relation.app.name]
    without the test for [None] that [is_ready] makes first. *)
Theorem is_available_raises_without_remote_app {Y : Yaml} :
  unresolved Examples.breaking_relation
  ∧ _IngressPerUnitBase.is_ready_rel Examples.breaking_relation = Return false
  ∧ IngressPerUnitProvider.is_ready
      (Examples.provider Examples.leader [Examples.breaking_relation])
      (Some Examples.breaking_relation) = Return false
  ∧ IngressPerUnitRequirer.is_ready
      (Examples.requirer [Examples.breaking_relation])
      (Some Examples.breaking_relation) = Return false
  ∧ _IngressPerUnitBase.is_available [Examples.breaking_relation]
      (Some Examples.breaking_relation) = Raise AttributeError.
Proof. repeat split. Qed.

(** ** One pass of [_handle_relation] *)

Lemma handle_relation_eq {Self : Type} (rd av fl : Self → option Relation → result bool)
    (emit : event → M Self unit) (relation : Relation) (self : Self) :
  _IngressPerUnitBase._handle_relation rd av fl emit relation self
  = match rd self (Some relation) with
    | Raise e => (Raise e, self)
    | Return true => emit (ready relation) self
    | Return false =>
        match av self (Some relation) with
        | Raise e => (Raise e, self)
        | Return true => emit (available relation) self
        | Return false =>
            match fl self (Some relation) with
            | Raise e => (Raise e, self)
            | Return true => emit (failed relation) self
            | Return false => (Return tt, self)
            end
        end
    end.
Proof.
  unfold _IngressPerUnitBase._handle_relation, mbind, M_bind, get, lift.
  destruct (rd self (Some relation)) as [[]|]; try done.
  destruct (av self (Some relation)) as [[]|]; try done.
  by destruct (fl self (Some relation)) as [[]|].
Qed.

Lemma on_relation_on {A} (m : M Relation A) self :
  IngressPerUnitRequirer.on (IngressPerUnitRequirer.on_relation m self).2
  = IngressPerUnitRequirer.on self.
Proof.
  unfold IngressPerUnitRequirer.on_relation.
  destruct (IngressPerUnitRequirer.relations self) as [|r rest]; [done|].
  by destruct (m r).
Qed.

Lemma publish_auto_data_on {Y : Yaml} relation self :
  IngressPerUnitRequirer.on (IngressPerUnitRequirer._publish_auto_data relation self).2
  = IngressPerUnitRequirer.on self.
Proof.
  unfold IngressPerUnitRequirer._publish_auto_data, mbind, M_bind, get, lift.
  destruct (IngressPerUnitRequirer._auto_data self) as [[host port]|]; [|done].
  destruct (IngressPerUnitRequirer.is_available self (Some relation)) as [[]|]; try done.
  unfold IngressPerUnitRequirer._publish_ingress_data, mbind, M_bind, get.
  apply on_relation_on.
Qed.

Lemma provider_emit_on e self :
  IngressPerUnitProvider.on (IngressPerUnitProvider.emit e self).2
  = (IngressPerUnitProvider.on self
     ++ e :: match e with ready r => [request r] | _ => [] end)%list.
Proof.
  unfold IngressPerUnitProvider.emit, mbind, M_bind, IngressPerUnitProvider.emit_raw,
    _IngressPerUnitBase._emit_request_event.
  destruct e; cbn; by rewrite <- ?app_assoc.
Qed.

Lemma requirer_emit_on e self :
  IngressPerUnitRequirer.on (IngressPerUnitRequirer.emit e self).2
  = (IngressPerUnitRequirer.on self ++ [e])%list.
Proof. done. Qed.

(** Closes one case of the pass: the events appended and their count. *)
Ltac status_case :=
  unfold IngressPerUnitRequirer.emit;
  cbn -[IngressPerUnitRequirer._publish_auto_data IngressPerUnitProvider.emit];
  rewrite ?publish_auto_data_on, ?provider_emit_on, ?app_nil_r;
  repeat split; cbn; first [done | lia].

(** C5.  One pass of [_handle_relation] over a relation, on the provider and
    on the requirer, appends to the events emitted so far a list with at most
    one of [ready], [available] and [failed]: the one picked by consulting
    [is_ready], then [is_available], then [is_failed], and none when the three
    are false (or when one of them raises). *)
Theorem handle_relation_at_most_one_status {Y : Yaml} (relation : Relation) :
  (∀ self : IngressPerUnitProvider.t,
     ∃ new,
       IngressPerUnitProvider.on (IngressPerUnitProvider._handle_relation relation self).2
         = (IngressPerUnitProvider.on self ++ new)%list
       ∧ List.filter is_status_event new
         = status_by_priority relation
             (IngressPerUnitProvider.is_ready self (Some relation))
             (IngressPerUnitProvider.is_available self (Some relation))
             (IngressPerUnitProvider.is_failed self (Some relation))
       ∧ (length (List.filter is_status_event new) ≤ 1)%nat)
  ∧ (∀ self : IngressPerUnitRequirer.t,
     ∃ new,
       IngressPerUnitRequirer.on (IngressPerUnitRequirer._handle_relation relation self).2
         = (IngressPerUnitRequirer.on self ++ new)%list
       ∧ List.filter is_status_event new
         = status_by_priority relation
             (IngressPerUnitRequirer.is_ready self (Some relation))
             (IngressPerUnitRequirer.is_available self (Some relation))
             (IngressPerUnitRequirer.is_failed self (Some relation))
       ∧ (length (List.filter is_status_event new) ≤ 1)%nat).
Proof.
  split; intros self.
  - unfold IngressPerUnitProvider._handle_relation. rewrite handle_relation_eq.
    destruct (IngressPerUnitProvider.is_ready self (Some relation)) as [[]|];
      [exists [ready relation; request relation]; status_case | | exists []; status_case].
    destruct (IngressPerUnitProvider.is_available self (Some relation)) as [[]|];
      [exists [available relation]; status_case | | exists []; status_case].
    destruct (IngressPerUnitProvider.is_failed self (Some relation)) as [[]|];
      [exists [failed relation] | exists [] | exists []]; status_case.
  - unfold IngressPerUnitRequirer._handle_relation.
    unfold mbind at 1. unfold M_bind. rewrite handle_relation_eq.
    destruct (IngressPerUnitRequirer.is_ready self (Some relation)) as [[]|];
      [exists [ready relation]; status_case | | exists []; status_case].
    destruct (IngressPerUnitRequirer.is_available self (Some relation)) as [[]|];
      [exists [available relation]; status_case | | exists []; status_case].
    destruct (IngressPerUnitRequirer.is_failed self (Some relation)) as [[]|];
      [exists [failed relation] | exists [] | exists []]; status_case.
Qed.

(** A pass on the provider that finds data raises [ready], which its own
    observer turns into [request]; a pass on a requirer that has no URL yet
    raises [available]; a pass on a relation with an empty remote name raises
    nothing. *)
Example handle_relation_passes :
  IngressPerUnitProvider.on
    (IngressPerUnitProvider._handle_relation (Y := PyYaml.yaml) Examples.mismatch_relation
       (Examples.provider Examples.leader [Examples.mismatch_relation])).2
  = [ready Examples.mismatch_relation; request Examples.mismatch_relation]
  ∧ IngressPerUnitRequirer.on
      (IngressPerUnitRequirer._handle_relation (Y := PyYaml.yaml) Examples.waiting_relation
         (Examples.requirer [Examples.waiting_relation])).2
    = [available Examples.waiting_relation]
  ∧ IngressPerUnitRequirer.on
      (IngressPerUnitRequirer._handle_relation (Y := PyYaml.yaml) Examples.nameless_relation
         (Examples.requirer [Examples.nameless_relation])).2
    = [].
Proof. repeat split; vm_compute; reflexivity. Qed.

(** When [is_available] is false the remote application has an empty name,
    and there [is_failed] is false on both roles: no pass of [_handle_relation]
    reaches the emission of [failed]. *)
Remark handle_relation_never_failed {Y : Yaml} (relation : Relation) :
  (∀ self : IngressPerUnitProvider.t,
     status_by_priority relation
       (IngressPerUnitProvider.is_ready self (Some relation))
       (IngressPerUnitProvider.is_available self (Some relation))
       (IngressPerUnitProvider.is_failed self (Some relation))
     ≠ [failed relation])
  ∧ (∀ self : IngressPerUnitRequirer.t,
     status_by_priority relation
       (IngressPerUnitRequirer.is_ready self (Some relation))
       (IngressPerUnitRequirer.is_available self (Some relation))
       (IngressPerUnitRequirer.is_failed self (Some relation))
     ≠ [failed relation]).
Proof.
  split; intros self.
  - destruct (IngressPerUnitProvider.is_ready self (Some relation)) as [[]|]; try done.
    cbn. unfold _IngressPerUnitBase.is_available_rel, IngressPerUnitProvider.is_failed_rel.
    destruct (rel_app relation) as [a|]; [|done].
    by destruct (str_truthy (app_name a)).
  - destruct (IngressPerUnitRequirer.is_ready self (Some relation)) as [[]|]; try done.
    cbn. unfold _IngressPerUnitBase.is_available_rel, IngressPerUnitRequirer.is_failed,
      IngressPerUnitRequirer.is_failed_rel.
    destruct (rel_app relation) as [a|]; [|done].
    destruct (str_truthy (app_name a)); [done|].
    by destruct (IngressPerUnitRequirer.relations self).
Qed.

(** ** Exceptions of the predicates *)









(** A validation failure of the fetch is the answer [True] of the provider's
    [is_failed]. *)
Lemma provider_is_failed_invalid_partition {Y : Yaml} self relation a d s :
  rel_app relation = Some a → app_name a ≠ "" → rel_units relation ≠ [] →
  IngressPerUnitProvider._fetch_relation_data (IngressPerUnitProvider.charm self)
    relation true = Raise (DataValidationError d s) →
  IngressPerUnitProvider.is_failed self (Some relation) = Return true.
Proof.
  intros Ha Hn Hu Hf. cbn. unfold IngressPerUnitProvider.is_failed_rel.
  rewrite Ha, Hf. destruct (app_name a); [done|]. cbn.
  by rewrite bool_decide_eq_false_2.
Qed.

(** ** Model mismatch between units *)





(** The requirer's [is_ready] reads [urls], which validates the provider
    partition outside any handler: a partition that fails its schema makes
    it raise [DataValidationError]. *)
Example requirer_is_ready_raises_on_corrupt_partition :
  raises_DataValidationError
    (IngressPerUnitRequirer.is_ready (Y := PyYaml.yaml)
       (Examples.requirer [Examples.corrupt_published_relation])
       (Some Examples.corrupt_published_relation)).
Proof. vm_compute. reflexivity. Qed.

(** ** The reference YAML implementation reads back what it writes *)

Section PyYamlRoundTrip.
Import PyYaml PyYamlSpec.

Lemma sapp_nil (s : string) : "" ++ s = s.
Proof. reflexivity. Qed.

Lemma sapp_cons c (s t : string) : String c s ++ t = String c (s ++ t).
Proof. reflexivity. Qed.

Lemma sapp_assoc (s t u : string) : (s ++ t) ++ u = s ++ (t ++ u).
Proof. induction s as [|c s IH]; [done|]. by rewrite !sapp_cons, IH. Qed.

Ltac sapp := rewrite ?sapp_cons, ?sapp_nil.

Lemma scan_single_quote s rest :
  str_forall is_printable s = true →
  match rest with String c _ => c ≠ "'"%char | EmptyString => True end →
  scan_single (quote_single s ++ String "'" rest) = Some (s, rest).
Proof.
  intros Hs Hrest. induction s as [|c s IH]; cbn in *.
  - sapp. cbn. destruct rest as [|c' r]; repeat case_bool_decide; done.
  - apply andb_true_iff in Hs as [Hc Hs]. case_bool_decide as Hq.
    + subst c. sapp. cbn. rewrite IH by done. by repeat case_bool_decide.
    + sapp. cbn. rewrite IH by done. rewrite Hc. by repeat case_bool_decide.
Qed.

Lemma scan_double_char c tail :
  scan_double (escape_char c ++ tail)
  = '(r, rest) ← scan_double tail; Some (String c r, rest).
Proof.
  destruct c as [[] [] [] [] [] [] [] []]; reflexivity.
Qed.

Lemma quote_double_cons c s : quote_double (String c s) = escape_char c ++ quote_double s.
Proof.
  cbn [quote_double]. unfold escape_char. destruct (escape_letter c); [done|].
  by destruct (is_printable c).
Qed.

Lemma scan_double_quote s rest :
  scan_double (quote_double s ++ String dquote rest) = Some (s, rest).
Proof.
  induction s as [|c s IH].
  - cbn. sapp. cbn. by case_bool_decide.
  - rewrite quote_double_cons, sapp_assoc.
    rewrite scan_double_char, IH. done.
Qed.

Lemma plain_char_facts c :
  is_plain_char c = true →
  is_printable c = true ∧ c ≠ "'"%char ∧ c ≠ dquote ∧ c ≠ " "%char ∧ c ≠ "{"%char
  ∧ c ≠ newline.
Proof.
  destruct c as [[] [] [] [] [] [] [] []]; vm_compute; intros H;
    first [discriminate H | repeat split; discriminate].
Qed.

Lemma printable_facts c : is_printable c = true → c ≠ newline.
Proof.
  destruct c as [[] [] [] [] [] [] [] []]; vm_compute; intros H;
    first [discriminate H | discriminate].
Qed.

Lemma plain_ok_inv s :
  plain_ok s = true →
  str_forall is_plain_char s = true ∧ str_last s ≠ Some ":"%char
  ∧ resolve s = Some (VStr s) ∧ ∃ c s', s = String c s' ∧ is_plain_char c = true.
Proof.
  unfold plain_ok. intros H.
  apply andb_true_iff in H as [H Hr]. apply andb_true_iff in H as [Hall Hlast].
  apply negb_true_iff, bool_decide_eq_false in Hlast.
  destruct (resolve s) as [[| | |s'|]|] eqn:Hres; try done.
  apply bool_decide_eq_true in Hr as ->.
  repeat split; try done.
  destruct s as [|c s']; [done|]. exists c, s'. split; [done|].
  cbn in Hall. by apply andb_true_iff in Hall as [? _].
Qed.

Lemma parse_value_plain s : plain_ok s = true → parse_value s = Some (VStr s).
Proof.
  intros (Hall & Hlast & Hres & c & s' & -> & Hc)%plain_ok_inv.
  destruct (plain_char_facts c Hc) as (_ & ? & ? & _ & ? & _).
  unfold parse_value. rewrite !bool_decide_eq_false_2 by done.
  unfold parse_plain. rewrite bool_decide_eq_false_2 by congruence.
  rewrite Hall. rewrite bool_decide_eq_false_2 by done. done.
Qed.

Lemma parse_value_emit_str s : parse_value (emit_str s) = Some (VStr s).
Proof.
  unfold emit_str. destruct (plain_ok s) eqn:Hp; [by apply parse_value_plain|].
  destruct (str_forall is_printable s) eqn:Hs.
  - sapp. unfold parse_value. rewrite bool_decide_eq_true_2 by done.
    unfold parse_quoted. rewrite scan_single_quote by done. done.
  - unfold parse_value. rewrite bool_decide_eq_false_2 by done.
    rewrite bool_decide_eq_true_2 by done.
    unfold parse_quoted. by rewrite scan_double_quote.
Qed.

Lemma scan_plain_key_app k rest :
  str_forall is_plain_char k = true → after_colon rest →
  scan_plain_key (k ++ String ":" rest) = Some (k, rest).
Proof.
  intros Hk Hrest. induction k as [|c k IH]; sapp.
  - cbn. rewrite bool_decide_eq_true_2 by done.
    destruct rest as [|c' r]; [done|]. cbn in Hrest. subst c'. done.
  - cbn in Hk. apply andb_true_iff in Hk as [Hc Hk]. cbn [scan_plain_key].
    rewrite IH by done. rewrite Hc.
    assert ((bool_decide (c = ":"%char)
             && match k ++ String ":" rest with
                | EmptyString => true
                | String c' _ => bool_decide (c' = " "%char)
                end) = false) as ->; [|done].
    apply andb_false_iff. right. destruct k as [|c' k']; sapp; [done|].
    cbn in Hk. apply andb_true_iff in Hk as [Hc' _].
    apply plain_char_facts in Hc' as (_ & _ & _ & ? & _).
    by rewrite bool_decide_eq_false_2.
Qed.

Lemma parse_key_emit_str k rest :
  after_colon rest → parse_key (emit_str k ++ String ":" rest) = Some (k, rest).
Proof.
  intros Hrest. unfold emit_str. destruct (plain_ok k) eqn:Hp.
  - apply plain_ok_inv in Hp as (Hall & Hlast & Hres & c & s' & -> & Hc).
    destruct (plain_char_facts c Hc) as (_ & ? & ? & _).
    sapp. unfold parse_key. rewrite !bool_decide_eq_false_2 by done.
    unfold parse_plain_key. rewrite <- sapp_cons.
    rewrite scan_plain_key_app by done. cbn [mbind option_bind]. by rewrite Hres.
  - destruct (str_forall is_printable k) eqn:Hs.
    + sapp. rewrite sapp_assoc. sapp. unfold parse_key.
      rewrite bool_decide_eq_true_2 by done. unfold parse_quoted_key.
      rewrite scan_single_quote by done. done.
    + sapp. rewrite sapp_assoc. sapp. unfold parse_key.
      rewrite bool_decide_eq_false_2 by done. rewrite bool_decide_eq_true_2 by done.
      unfold parse_quoted_key. by rewrite scan_double_quote.
Qed.

(** Decimal integers *)

Lemma digits_of_uint d : str_forall is_digit (NilEmpty.string_of_uint d) = true.
Proof. induction d; cbn; by rewrite ?IHd. Qed.

Lemma digit_facts c :
  is_digit c = true →
  is_plain_char c = true ∧ is_letter c = false ∧ c ≠ "/"%char ∧ c ≠ "."%char
  ∧ c ≠ ":"%char ∧ c ≠ "-"%char.
Proof.
  destruct c as [[] [] [] [] [] [] [] []]; vm_compute; intros H;
    first [discriminate H | repeat split; discriminate].
Qed.

Lemma digits_plain s : str_forall is_digit s = true → str_forall is_plain_char s = true.
Proof.
  induction s as [|c s IH]; [done|]. cbn. intros [Hc Hs]%andb_true_iff.
  apply digit_facts in Hc as (-> & _). by rewrite IH.
Qed.

Lemma digits_no_dot s : str_forall is_digit s = true → str_count "." s = 0.
Proof.
  induction s as [|c s IH]; [done|]. cbn. intros [Hc Hs]%andb_true_iff.
  apply digit_facts in Hc as (_ & _ & _ & ? & _).
  rewrite bool_decide_eq_false_2 by done. by rewrite IH.
Qed.

Lemma digits_last s c :
  str_forall is_digit s = true → str_last s = Some c → is_digit c = true.
Proof.
  induction s as [|c' s IH]; [done|]. cbn. intros [Hc Hs]%andb_true_iff.
  destruct s; [by intros [= <-] | by apply IH].
Qed.

Lemma str_last_cons c s : s ≠ "" → str_last (String c s) = str_last s.
Proof. by destruct s. Qed.

Lemma to_int_shape z :
  ∃ sign d, Z.to_int z = (if sign : bool then Neg d else Pos d) ∧ d ≠ Nil.
Proof.
  destruct z as [|p|p]; cbn.
  - by exists false, Decimal.zero.
  - exists false, (Pos.to_uint p). split; [done|]. apply Unsigned.to_uint_nonnil.
  - exists true, (Pos.to_uint p). split; [done|]. apply Unsigned.to_uint_nonnil.
Qed.

Lemma to_int_norm z : norm (Z.to_int z) = Z.to_int z.
Proof. rewrite <- DecimalZ.to_of. by rewrite DecimalZ.of_to. Qed.

Lemma resolve_int_emit z : resolve_int (emit_int z) = Some (VInt z).
Proof.
  unfold resolve_int, emit_int.
  destruct (to_int_shape z) as (sign & d & Hz & Hd).
  rewrite NilZero.isi.
  - rewrite bool_decide_eq_true_2 by apply to_int_norm. by rewrite DecimalZ.of_to.
  - rewrite Hz. destruct sign; congruence.
  - rewrite Hz. destruct sign; congruence.
Qed.

Lemma nilzero_uint_digits d :
  d ≠ Nil →
  NilZero.string_of_uint d = NilEmpty.string_of_uint d
  ∧ ∃ c s, NilEmpty.string_of_uint d = String c s ∧ is_digit c = true.
Proof.
  intros Hd. destruct d; try done; (split; [done|]); cbn; eauto.
Qed.

Lemma parse_value_emit_int z : parse_value (emit_int z) = Some (VInt z).
Proof.
  pose proof (resolve_int_emit z) as Hres. unfold emit_int in *.
  destruct (to_int_shape z) as (sign & d & Hz & Hd). rewrite Hz in *.
  destruct (nilzero_uint_digits d Hd) as (Heq & c & s & Hs & Hc).
  pose proof (digits_of_uint d) as Hdig.
  destruct (digit_facts c Hc) as (Hpc & Hl & Hsl & Hdot & Hcol & Hmin).
  destruct (plain_char_facts c Hpc) as (_ & ? & ? & ? & ? & _).
  assert (str_last (NilEmpty.string_of_uint d) ≠ Some ":"%char) as Hlast.
  { intros Hlast. apply (digits_last _ _ Hdig) in Hlast. done. }
  destruct sign; cbn [NilZero.string_of_int] in *; rewrite Heq in *.
  - unfold parse_value. rewrite !bool_decide_eq_false_2 by done.
    unfold parse_plain. rewrite bool_decide_eq_false_2 by done.
    cbn [str_forall]. rewrite (digits_plain _ Hdig).
    rewrite str_last_cons by (rewrite Hs; done).
    rewrite (bool_decide_eq_false_2 (str_last _ = _)) by done.
    cbn [andb negb is_plain_char]. 
    assert (is_plain_char "-" = true) as -> by done. cbn [andb].
    unfold resolve. 
    assert (is_letter "-" = false) as -> by done.
    assert (is_digit "-" = false) as -> by done.
    cbn [orb andb]. rewrite bool_decide_eq_false_2 by done.
    rewrite bool_decide_eq_true_2 by done. done.
  - rewrite Hs in *. unfold parse_value. rewrite !bool_decide_eq_false_2 by done.
    unfold parse_plain. rewrite bool_decide_eq_false_2 by congruence.
    rewrite (digits_plain _ Hdig).
    rewrite (bool_decide_eq_false_2 (str_last _ = _)) by done.
    cbn [andb negb]. unfold resolve. rewrite Hl, Hc.
    rewrite bool_decide_eq_false_2 by done. cbn [orb andb].
    rewrite (digits_no_dot _ Hdig). cbn. done.
Qed.

Lemma str_forall_app p s t : str_forall p (s ++ t) = str_forall p s && str_forall p t.
Proof. induction s as [|c s IH]; sapp; [done|]. cbn. by rewrite IH, andb_assoc. Qed.

Lemma str_forall_impl (p q : ascii → bool) s :
  (∀ c, p c = true → q c = true) → str_forall p s = true → str_forall q s = true.
Proof.
  intros Hpq. induction s as [|c s IH]; [done|]. cbn.
  intros [Hc Hs]%andb_true_iff. by rewrite (Hpq _ Hc), IH.
Qed.

Lemma str_count_app c s t : str_count c (s ++ t) = str_count c s + str_count c t.
Proof. induction s as [|c' s IH]; sapp; [done|]. cbn. rewrite IH. lia. Qed.

Lemma printable_no_nl s : str_forall is_printable s = true → no_nl s = true.
Proof.
  apply str_forall_impl. intros c Hc%printable_facts. by rewrite bool_decide_eq_false_2.
Qed.

Lemma plain_no_nl s : str_forall is_plain_char s = true → no_nl s = true.
Proof.
  intros H. apply printable_no_nl. revert H. apply str_forall_impl.
  by intros c (? & _)%plain_char_facts.
Qed.

Lemma quote_single_printable s :
  str_forall is_printable s = true → str_forall is_printable (quote_single s) = true.
Proof.
  induction s as [|c s IH]; [done|]. cbn. intros [Hc Hs]%andb_true_iff.
  case_bool_decide; cbn; rewrite ?Hc, IH; done.
Qed.

Lemma escape_char_printable c : str_forall is_printable (escape_char c) = true.
Proof. destruct c as [[] [] [] [] [] [] [] []]; reflexivity. Qed.

Lemma quote_double_printable s : str_forall is_printable (quote_double s) = true.
Proof.
  induction s as [|c s IH]; [done|].
  by rewrite quote_double_cons, str_forall_app, escape_char_printable, IH.
Qed.

Lemma emit_str_no_nl s : no_nl (emit_str s) = true.
Proof.
  unfold emit_str. destruct (plain_ok s) eqn:Hp.
  - apply plain_ok_inv in Hp as (? & _). by apply plain_no_nl.
  - destruct (str_forall is_printable s) eqn:Hs; apply printable_no_nl.
    + rewrite str_forall_app. rewrite str_forall_app.
      by rewrite quote_single_printable.
    + cbn. by rewrite str_forall_app, quote_double_printable.
Qed.

Lemma emit_int_no_nl z : no_nl (emit_int z) = true.
Proof.
  unfold emit_int. destruct (to_int_shape z) as (sign & d & -> & Hd).
  destruct (nilzero_uint_digits d Hd) as (Heq & _).
  apply plain_no_nl.
  destruct sign; cbn [NilZero.string_of_int]; rewrite Heq; cbn [str_forall];
    rewrite (digits_plain _ (digits_of_uint d)); done.
Qed.

Lemma emit_str_head k : ∃ c s, emit_str k = String c s ∧ c ≠ " "%char.
Proof.
  unfold emit_str. destruct (plain_ok k) eqn:Hp.
  - apply plain_ok_inv in Hp as (_ & _ & _ & c & s & -> & Hc).
    apply plain_char_facts in Hc as (_ & _ & _ & ? & _). eauto.
  - destruct (str_forall is_printable k); sapp; eexists _, _; split; done.
Qed.

Lemma split_lines_line l rest :
  no_nl l = true → split_lines (l ++ String newline rest) = l :: split_lines rest.
Proof.
  unfold no_nl. induction l as [|c l IH]; sapp; cbn [split_lines str_forall].
  - intros _. by rewrite bool_decide_eq_true_2.
  - intros [Hc Hl]%andb_true_iff. apply negb_true_iff in Hc. rewrite Hc.
    by rewrite IH.
Qed.

Lemma split_lines_unlines ls :
  Forall (λ l, no_nl l = true) ls → split_lines (unlines ls) = ls.
Proof.
  induction 1 as [|l ls Hl _ IH]; [done|]. cbn. by rewrite split_lines_line, IH.
Qed.

Lemma is_blank_colon l : str_count ":" l ≠ 0 → is_blank l = false.
Proof.
  unfold is_blank. induction l as [|c l IH]; [done|].
  cbn [str_count str_forall]. case_bool_decide as Hc.
  - subst c. intros _. by rewrite bool_decide_eq_false_2.
  - intros H. rewrite IH by done. apply andb_false_r.
Qed.

Lemma strip_indent_head c s : c ≠ " "%char → strip_indent (String c s) = (0, String c s).
Proof.
  intros Hc. cbn. destruct c as [[] [] [] [] [] [] [] []]; try done.
Qed.

Lemma parse_line_space s :
  parse_line (String " " s)
  = '(i, k, r) ← parse_line s; Some (S i, k, r).
Proof.
  unfold parse_line. cbn [strip_indent]. destruct (strip_indent s) as [n content].
  destruct (parse_key content) as [[k after]|]; [|done]. cbn.
  destruct after as [|c vtxt]; [done|].
  destruct c as [[] [] [] [] [] [] [] []]; try done.
  by destruct (parse_value vtxt).
Qed.

Lemma parse_line_spaces n s i k r :
  parse_line s = Some (i, k, r) → parse_line (spaces n ++ s) = Some (n + i, k, r).
Proof.
  intros H. induction n as [|n IH]; [done|].
  cbn [spaces]. sapp. by rewrite parse_line_space, IH.
Qed.

Lemma parse_line_scalar k txt v :
  parse_value txt = Some v →
  parse_line (emit_str k ++ ": " ++ txt) = Some (0, k, RValue v).
Proof.
  intros Hv. unfold parse_line.
  destruct (emit_str_head k) as (c & s & Hk & Hc).
  assert (strip_indent (emit_str k ++ ": " ++ txt) = (0, emit_str k ++ ": " ++ txt)) as ->.
  { rewrite Hk. sapp. by apply strip_indent_head. }
  change (": " ++ txt) with (String ":" (String " " txt)).
  rewrite parse_key_emit_str by done. cbn. by rewrite Hv.
Qed.

Lemma parse_line_nested k :
  parse_line (emit_str k ++ ":") = Some (0, k, RNested).
Proof.
  unfold parse_line.
  destruct (emit_str_head k) as (c & s & Hk & Hc).
  assert (strip_indent (emit_str k ++ ":") = (0, emit_str k ++ ":")) as ->.
  { rewrite Hk. sapp. by apply strip_indent_head. }
  by rewrite parse_key_emit_str.
Qed.

Lemma shift_shift n k pl : shift n (shift k pl) = shift (n + k) pl.
Proof. destruct pl as [[i key] r]. unfold shift. cbn. f_equal. f_equal. lia. Qed.

Lemma no_nl_app s t : no_nl (s ++ t) = no_nl s && no_nl t.
Proof. apply str_forall_app. Qed.

Lemma no_nl_spaces n : no_nl (spaces n) = true.
Proof. induction n; [done|]. cbn. done. Qed.

Lemma good_line_indent n l : good_line l → good_line (spaces n ++ l).
Proof.
  intros [H1 H2]. split.
  - by rewrite no_nl_app, no_nl_spaces, H1.
  - rewrite str_count_app. lia.
Qed.

Lemma good_line_scalar k txt : no_nl txt = true → good_line (emit_str k ++ ": " ++ txt).
Proof.
  intros H. split.
  - rewrite !no_nl_app, emit_str_no_nl, H. done.
  - rewrite str_count_app. change (": " ++ txt) with (String ":" (String " " txt)).
    cbn [str_count]. rewrite bool_decide_eq_true_2 by done. lia.
Qed.

Lemma good_line_nested k : good_line (emit_str k ++ ":").
Proof.
  split.
  - rewrite !no_nl_app, emit_str_no_nl. done.
  - rewrite str_count_app. cbn [str_count]. rewrite bool_decide_eq_true_2 by done. lia.
Qed.

Lemma parse_entries_value fuel n acc k v tl :
  parse_entries (S fuel) n acc ((n, k, RValue v) :: tl)
  = parse_entries fuel n (<[k := v]> acc) tl.
Proof. cbn [parse_entries]. by rewrite Nat.ltb_irrefl. Qed.

Lemma parse_entries_nested fuel n acc k i' k' r' tl :
  n < i' →
  parse_entries (S fuel) n acc ((n, k, RNested) :: (i', k', r') :: tl)
  = '(sub, rest') ← parse_entries fuel i' ∅ ((i', k', r') :: tl);
    parse_entries fuel n (<[k := VDict sub]> acc) rest'.
Proof.
  intros Hlt. cbn [parse_entries]. rewrite Nat.ltb_irrefl.
  by rewrite (proj2 (Nat.ltb_lt _ _) Hlt).
Qed.

Lemma parse_entries_end fuel n acc rest :
  below n rest → parse_entries (S fuel) n acc rest = Some (acc, rest).
Proof.
  intros Hrest. cbn [parse_entries].
  destruct rest as [|[[i k] r] rest]; [done|]. cbn in Hrest.
  by rewrite (proj2 (Nat.ltb_lt _ _) Hrest).
Qed.

Lemma shift_margin n k r : shift n (0, k, r) = (n, k, r).
Proof. unfold shift. cbn. by rewrite Nat.add_0_r. Qed.

Lemma fmap_shift_shift n k (pls : list pline) :
  shift n <$> (shift k <$> pls) = shift (n + k) <$> pls.
Proof.
  rewrite <- list_fmap_compose. apply list_fmap_ext. intros ? pl _. apply shift_shift.
Qed.

Section Items.

Variable indent : nat.

Hypothesis indent_pos : 0 < indent.

Lemma items_parse (L : list (string * value)) :
  Forall (λ e, renders (represent indent e.2) e.2) L →
  Forall good_line (item_lines indent L)
  ∧ ∃ pls, Forall2 (λ l pl, parse_line l = Some pl) (item_lines indent L) pls
      ∧ (L ≠ [] → pls ≠ []) ∧ at_margin pls
      ∧ ∀ n fuel acc rest, length pls < fuel → below n rest →
          parse_entries fuel n acc ((shift n <$> pls) ++ rest)
          = Some (foldl put_item acc L, rest).
Proof.
  induction 1 as [|[k x] L Hx HL IH].
  - split; [constructor|]. exists []. split; [constructor|]. split; [done|]. split; [done|].
    intros n fuel acc rest Hfuel Hrest.
    destruct fuel as [|fuel]; [cbn in Hfuel; lia|].
    by apply parse_entries_end.
  - destruct IH as (Hgood & pls & Hparse & _ & Hmargin & Hent).
    unfold item_lines. cbn [fmap list_fmap prod_map concat]. fold (item_lines indent L).
    cbn [fst snd id] in *. unfold emit_item. cbn [fst snd].
    destruct (represent indent x) as [txt|bls] eqn:Hr; cbn [renders] in Hx.
    + destruct Hx as [Hv Hnl]. split.
      { cbn. constructor; [by apply good_line_scalar | done]. }
      exists ((0, k, RValue x) :: pls). split.
      { cbn. constructor; [by apply parse_line_scalar | done]. }
      split; [done|]. split; [done|].
      intros n fuel acc rest Hfuel Hrest. cbn in Hfuel.
      destruct fuel as [|fuel]; [lia|].
      cbn [fmap list_fmap app foldl]. rewrite shift_margin, parse_entries_value.
      apply Hent; [lia | done].
    + destruct Hx as (sub & -> & Hbgood & bpls & Hbparse & Hbne & Hbmargin & Hbent).
      split.
      { cbn. constructor; [apply good_line_nested|]. apply Forall_app. split; [|done].
        apply Forall_fmap. eapply Forall_impl; [exact Hbgood|].
        intros l Hl. by apply good_line_indent. }
      exists ((0, k, RNested) :: (shift indent <$> bpls) ++ pls). split.
      { cbn. constructor; [apply parse_line_nested|]. apply Forall2_app; [|done].
        apply Forall2_fmap. eapply Forall2_impl; [exact Hbparse|].
        intros l [[i key] r] Hl. by apply parse_line_spaces. }
      split; [done|]. split; [done|].
      intros n fuel acc rest Hfuel Hrest.
      cbn [length] in Hfuel. rewrite length_app, length_fmap in Hfuel.
      destruct fuel as [|fuel]; [lia|].
      cbn [fmap list_fmap app foldl]. rewrite shift_margin.
      rewrite fmap_app, fmap_shift_shift, <- app_assoc.
      specialize (Hbent (n + indent) fuel ((shift n <$> pls) ++ rest)%list).
      destruct bpls as [|[[i0 k0] r0] bpls]; [done|]. cbn in Hbmargin. subst i0.
      cbn [fmap list_fmap app] in *. rewrite shift_margin in *.
      rewrite parse_entries_nested by lia.
      match goal with
      | |- ?lhs ≫= _ = _ =>
          replace lhs with (Some (sub, ((shift n <$> pls) ++ rest)%list))
      end.
      * cbn. apply Hent; [lia | done].
      * symmetry. apply Hbent.
        -- cbn [length] in *. lia.
        -- destruct pls as [|[[i1 k1] r1] pls]; cbn.
           ++ destruct rest as [|[[i k'] r] rest]; [done|]. cbn in *. lia.
           ++ cbn in Hmargin. subst i1. lia.
Qed.

End Items.

(** Sorting *)

Lemma insert_sorted_perm {A} (e : string * A) l : insert_sorted e l ≡ₚ e :: l.
Proof.
  induction l as [|e' l IH]; [done|]. cbn. destruct (String.leb _ _); [done|].
  rewrite IH. apply Permutation_swap.
Qed.

Lemma sort_items_perm {A} (l : list (string * A)) : sort_items l ≡ₚ l.
Proof.
  induction l as [|e l IH]; [done|]. cbn. by rewrite insert_sorted_perm, IH.
Qed.

Lemma insert_sorted_fmap {A B} (f : A → B) (e : string * A) l :
  insert_sorted (prod_map id f e) (prod_map id f <$> l)
  = prod_map id f <$> insert_sorted e l.
Proof.
  induction l as [|e' l IH]; [done|]. cbn. destruct (String.leb _ _); [done|].
  cbn. by rewrite <- IH.
Qed.

Lemma sort_items_fmap {A B} (f : A → B) (l : list (string * A)) :
  sort_items (prod_map id f <$> l) = prod_map id f <$> sort_items l.
Proof.
  induction l as [|e l IH]; [done|]. cbn. fold (sort_items (prod_map id f <$> l)).
  fold (sort_items l). by rewrite IH, insert_sorted_fmap.
Qed.

Lemma represent_items indent (m : gmap string value) :
  map_fold (λ k x acc, (k, represent indent x) :: acc) [] m
  = prod_map id (represent indent) <$> map_to_list m.
Proof.
  rewrite map_fold_foldr. induction (map_to_list m) as [|[k x] l IH]; [done|].
  cbn. by rewrite IH.
Qed.

Lemma foldl_put_item (L : list (string * value)) (m : gmap string value) :
  L ≡ₚ map_to_list m → foldl put_item ∅ L = m.
Proof.
  intros HL. apply map_eq. intros k.
  assert (NoDup L.*1) as Hnd.
  { rewrite HL. apply NoDup_fst_map_to_list. }
  assert (∀ acc, foldl put_item acc L !! k
                 = match list_find (λ e, e.1 = k) L with
                   | Some (_, e) => Some e.2
                   | None => acc !! k
                   end) as Hfold.
  { clear HL. induction L as [|[k' x] L IH]; intros acc; [done|].
    cbn in Hnd. apply NoDup_cons in Hnd as [Hk' Hnd].
    cbn [foldl list_find]. rewrite IH by done. cbn. case_decide as Hk.
    - subst k'. cbn. destruct (list_find _ L) as [[i e]|] eqn:Hfind.
      + apply list_find_Some in Hfind as (Hi & <- & _).
        exfalso. apply Hk'. apply list_elem_of_fmap. exists e. split; [done|].
        by eapply list_elem_of_lookup_2.
      + unfold put_item. cbn. by rewrite lookup_insert_eq.
    - destruct (list_find _ L) as [[i e]|]; cbn; [done|].
      unfold put_item. cbn. by rewrite lookup_insert_ne. }
  rewrite Hfold, lookup_empty.
  destruct (list_find _ L) as [[i [k' x]]|] eqn:Hfind.
  - apply list_find_Some in Hfind as (Hi & Hk & _). cbn in Hk. subst k'.
    symmetry. apply elem_of_map_to_list. rewrite <- HL. by eapply list_elem_of_lookup_2.
  - destruct (m !! k) as [x|] eqn:Hm; [|done].
    apply elem_of_map_to_list in Hm. rewrite <- HL in Hm.
    apply list_find_None in Hfind. rewrite Forall_forall in Hfind.
    by specialize (Hfind _ Hm).
Qed.

Lemma value_size_lookup (m : gmap string value) k x :
  m !! k = Some x → value_size x < value_size (VDict m).
Proof.
  intros Hx. cbn [value_size]. rewrite map_fold_foldr.
  apply elem_of_map_to_list in Hx.
  induction (map_to_list m) as [|[k' x'] l IH]; [by apply elem_of_nil in Hx|].
  cbn. apply elem_of_cons in Hx as [[= <- <-]|Hx]; [lia|].
  specialize (IH Hx). lia.
Qed.

Lemma value_ind_deep (P : value → Prop) :
  (∀ v, match v with
        | VDict m => map_Forall (λ _ x, P x) m
        | _ => True
        end → P v) →
  ∀ v, P v.
Proof.
  intros Hstep v. remember (value_size v) as n eqn:Hn. revert v Hn.
  induction n as [n IH] using lt_wf_ind. intros v ->.
  apply Hstep. destruct v as [| | | |m]; try done.
  intros k x Hx. eapply IH; [|done]. by eapply value_size_lookup.
Qed.

(** The round trip *)

Lemma represent_dict indent (m : gmap string value) :
  represent indent (VDict m)
  = if decide (m = ∅) then Inline "{}"
    else Block (item_lines indent (sort_items (map_to_list m))).
Proof.
  cbn [represent]. rewrite represent_items. case_decide as Hm.
  - subst m. by rewrite map_to_list_empty.
  - unfold item_lines. rewrite <- sort_items_fmap.
    destruct (map_to_list m) as [|e l] eqn:Hl; [by apply map_to_list_empty_iff in Hl|].
    by cbn.
Qed.

Lemma represent_renders indent x : 0 < indent → renders (represent indent x) x.
Proof.
  intros Hindent. induction x as [x IH] using value_ind_deep.
  destruct x as [| |z|s|m].
  - by split.
  - by destruct b; split.
  - split; [apply parse_value_emit_int | apply emit_int_no_nl].
  - split; [apply parse_value_emit_str | apply emit_str_no_nl].
  - rewrite represent_dict. case_decide as Hm; [by subst m; split|].
    exists m. split; [done|].
    set (L := sort_items (map_to_list m)).
    assert (L ≡ₚ map_to_list m) as HL by apply sort_items_perm.
    destruct (items_parse indent Hindent L) as (Hgood & pls & Hparse & Hne & Hmargin & Hent).
    { apply Forall_forall. intros [k x] Hkx. rewrite HL in Hkx.
      apply elem_of_map_to_list in Hkx. by apply (IH k x). }
    split; [done|]. exists pls. split; [done|]. split.
    { apply Hne. intros HLnil. rewrite HLnil in HL. symmetry in HL.
      apply Permutation_nil_r in HL. by apply map_to_list_empty_iff in HL. }
    split; [done|]. intros n fuel rest Hfuel Hrest.
    rewrite Hent by done. by rewrite (foldl_put_item L m).
Qed.

Lemma good_line_facts l : good_line l → no_nl l = true ∧ is_blank l = false ∧ l ≠ "{}".
Proof.
  intros [Hnl Hc]. split; [done|]. split; [by apply is_blank_colon|]. by intros ->.
Qed.

Theorem safe_load_safe_dump (m : gmap string value) (indent : nat) :
  0 < indent → safe_load (safe_dump (VDict m) indent) = Some (VDict m).
Proof.
  intros Hindent. pose proof (represent_renders indent (VDict m) Hindent) as Hr.
  unfold safe_dump. rewrite represent_dict in *. case_decide as Hm.
  - subst m. reflexivity.
  - destruct Hr as (sub & [= <-] & Hgood & pls & Hparse & Hne & Hmargin & Hent).
    set (ls := item_lines indent (sort_items (map_to_list m))) in *.
    unfold safe_load.
    rewrite split_lines_unlines
      by (eapply Forall_impl; [exact Hgood|]; by intros l (? & _)%good_line_facts).
    assert (filter (λ l, is_blank l = false) ls = ls) as ->.
    { clear -Hgood. induction Hgood as [|l ls Hl _ IH]; [done|].
      apply good_line_facts in Hl as (_ & Hb & _).
      rewrite filter_cons_True by done. by rewrite IH. }
    destruct ls as [|l ls'] eqn:Hls.
    { apply Forall2_nil_inv_l in Hparse. done. }
    rewrite bool_decide_eq_false_2 by done.
    rewrite bool_decide_eq_false_2.
    2: { intros [= -> ->]. apply Forall_cons in Hgood as [Hl _].
         by apply good_line_facts in Hl as (_ & _ & ?). }
    rewrite (mapM_Some_2 _ _ _ Hparse). cbn [mbind option_bind].
    specialize (Hent 0 (S (length pls)) []).
    rewrite app_nil_r in Hent.
    assert (shift 0 <$> pls = pls) as Hshift.
    { clear. induction pls as [|[[i k] r] pls IH]; [done|]. cbn. by rewrite IH. }
    rewrite Hshift in Hent. rewrite Hent; [done | lia | done].
Qed.

Lemma unlines_nonempty ls : ls ≠ [] → unlines ls ≠ "".
Proof. destruct ls as [|l ls]; [done|]. intros _. cbn. by destruct l. Qed.

Lemma safe_dump_nonempty v indent : 0 < indent → safe_dump v indent ≠ "".
Proof.
  intros Hindent. unfold safe_dump.
  destruct (represent indent v) as [txt|ls] eqn:Hr.
  - destruct v; try (by destruct txt); destruct (plain_ok _); by destruct txt.
  - apply unlines_nonempty. intros ->.
    pose proof (represent_renders indent v Hindent) as Hv. rewrite Hr in Hv.
    destruct Hv as (sub & _ & _ & pls & Hparse & Hne & _).
    by apply Forall2_nil_inv_l in Hparse.
Qed.

Global Instance yaml_round_trip : YamlRoundTrip yaml.
Proof.
  split.
  - intros m. apply safe_load_safe_dump. lia.
  - intros v. apply safe_dump_nonempty. lia.
Qed.

End PyYamlRoundTrip.

(** ** Round trip of a requirer record *)

(** C9.  A requirer record, with any strings for [model], [name] and [host]
    and any integer for [port], is deserialized from its serialization as an
    equal dictionary, so that the four fields read back as they were
    written. *)
Theorem requirer_record_round_trip (model name host : string) (port : Z) :
  let data := RequirerData model name host port in
  let read := _deserialize_data (Y := PyYaml.yaml)
                (_serialize_data (Y := PyYaml.yaml) data) in
  read = Return data
  ∧ (read ≫= λ d, py_getitem d "model") = Return (VStr model)
  ∧ (read ≫= λ d, py_getitem d "name") = Return (VStr name)
  ∧ (read ≫= λ d, py_getitem d "host") = Return (VStr host)
  ∧ (read ≫= λ d, py_getitem d "port") = Return (VInt port).
Proof.
  intros data read.
  assert (read = Return data) as ->; [|by repeat split].
  unfold read, _deserialize_data, _serialize_data, data, RequirerData.
  cbn [yaml_safe_load yaml_safe_dump PyYaml.yaml].
  rewrite safe_load_safe_dump by lia. done.
Qed.

(** The record as [yaml.safe_dump] writes it for [web/0], and as it is read
    back. *)
Example requirer_record_text :
  _serialize_data (Y := PyYaml.yaml) (RequirerData "m1" "web/0" "10.0.0.2" 80)
  = Examples.web_0_data
  ∧ _deserialize_data (Y := PyYaml.yaml) Examples.web_0_data
    = Return (RequirerData "m1" "web/0" "10.0.0.2" 80).
Proof. split; vm_compute; reflexivity. Qed.

(** A published record also passes the requirer schema. *)
Lemma requirer_record_valid model name host port :
  is_valid INGRESS_REQUIRES_UNIT_SCHEMA (RequirerData model name host port) = true.
Proof.
  apply is_valid_requires. eexists. split; [done|]. unfold requirer_record.
  repeat split; eexists; by simplify_map_eq.
Qed.

(** C8, witness: the leader publishes the URL of [web/0] a second time. *)
Lemma publish_url_idempotent_witness :
  let relation1 :=
    relation_set Examples.fresh_relation (AppE Examples.traefik) "data"
      Examples.published_data in
  IngressPerUnitProvider.publish_url (Y := PyYaml.yaml) Examples.leader
    "web/0" "http://traefik/m1-web-0" relation1
  = (Return tt, relation1).
Proof.
  apply (publish_url_idempotent (Y := PyYaml.yaml) Examples.leader
           "web/0" "http://traefik/m1-web-0" Examples.fresh_relation).
  - exact yaml_round_trip.
  - vm_compute. reflexivity.
Defined.

(** Idempotence on an aggregate that already holds another unit: the URL of
    [web/1] is published twice after that of [web/0]. *)
Example publish_url_twice :
  let publish u url r :=
    (IngressPerUnitProvider.publish_url (Y := PyYaml.yaml) Examples.leader u url r).2 in
  let relation1 := publish "web/0" "http://traefik/m1-web-0" Examples.fresh_relation in
  let relation2 := publish "web/1" "http://traefik/m1-web-1" relation1 in
  relation2 ≠ relation1
  ∧ publish "web/1" "http://traefik/m1-web-1" relation2 = relation2
  ∧ (_deserialize_data (Y := PyYaml.yaml)
       (default "" (databag relation2 (AppE Examples.traefik) !! "data")))
    = Return (VDict {[ "ingress" :=
        VDict (<[ "web/0" := url_entry "http://traefik/m1-web-0" ]>
                 {[ "web/1" := url_entry "http://traefik/m1-web-1" ]}) ]}).
Proof.
  repeat split; [|vm_compute; reflexivity..].
  vm_compute. discriminate.
Qed.

(** * The rest of the library

    The properties below are read off the code of the methods the claims leave
    out, and off the way the methods of the two roles compose over the shared
    databags. *)

(** ** The aggregate, published and read back *)

Lemma databag_same relation seen e :
  same_databags relation seen → databag seen e = databag relation e.
Proof. unfold same_databags, databag. by intros ->. Qed.

(** The comprehension of [urls] over the entries of a valid [ingress]. *)
Lemma mapM_entry_urls (L : list (string * value)) :
  Forall (λ kv, ingress_entry kv.2) L →
  ∃ kvs,
    mapM (λ '(unit_name, unit_data),
            u ← py_getitem unit_data "url"; Return (unit_name, u)) L
    = Return kvs
    ∧ (list_to_map kvs : gmap string value) = omap entry_url (list_to_map L).
Proof.
  induction 1 as [|[k e] L He _ (kvs & IH1 & IH2)].
  - exists []. split; [done|]. cbn. by rewrite omap_empty.
  - cbn in He. destruct He as (em & -> & (u & Hu) & _).
    exists ((k, VStr u) :: kvs). split.
    + cbn. rewrite Hu. cbn. rewrite IH1. done.
    + cbn [list_to_map foldr]. cbn. rewrite IH2.
      symmetry. apply omap_insert_Some. unfold entry_url. cbn. by rewrite Hu.
Qed.

(** [urls] reads the provider partition as [publish_url] does: nothing
    published is the empty aggregate, a text that is not YAML raises, a document
    that fails the schema raises, and a valid aggregate gives the URL of every
    unit in it. *)
Lemma urls_read {Y : Yaml} (c : Charm) (self : IngressPerUnitRequirer.t)
    (relation : Relation) :
  requirer_sees self (this_app c) relation →
  str_truthy (app_name (this_app c)) = true →
  IngressPerUnitRequirer.urls self
  = match read_aggregate c relation with
    | None => Raise YAMLError
    | Some data =>
        if is_valid INGRESS_PROVIDES_APP_SCHEMA data then Return (aggregate_urls data)
        else Raise (DataValidationError data INGRESS_PROVIDES_APP_SCHEMA)
    end.
Proof.
  intros (Hb & seen & Hrel & Happ & Hdata) Hname.
  unfold IngressPerUnitRequirer.urls, read_aggregate.
  rewrite Hrel, Hb, Happ, Hname. cbn [mbind result_bind].
  rewrite (databag_same _ _ _ Hdata).
  destruct (raw_truthy (databag relation (AppE (this_app c)) !! "data")) eqn:Hraw;
    cbn [negb].
  2: { rewrite (proj2 (is_valid_provides _)).
       - cbn. rewrite lookup_singleton_eq. by rewrite omap_empty.
       - eexists. split; [done|]. exists ∅. rewrite lookup_singleton_eq.
         split; [done|]. apply map_Forall_empty. }
  unfold _deserialize_data.
  destruct (yaml_safe_load _) as [data|]; [|done]. cbn [mbind result_bind].
  unfold _validate_data.
  destruct (is_valid INGRESS_PROVIDES_APP_SCHEMA data) eqn:Hv; [|done].
  cbn [mbind result_bind].
  destruct (proj1 (is_valid_provides _) Hv) as (m & -> & ing & Hing & Hall).
  cbn [py_get aggregate_urls]. rewrite Hing. cbn [default from_option id mbind result_bind].
  destruct (mapM_entry_urls (map_to_list ing)) as (kvs & -> & Hkvs).
  { apply Forall_forall. intros [k e] Hin. apply elem_of_map_to_list in Hin.
    apply (Hall k e Hin). }
  cbn. by rewrite Hkvs, list_to_map_to_list.
Qed.

Lemma relation_set_set relation e key v1 v2 :
  relation_set (relation_set relation e key v1) e key v2
  = relation_set relation e key v2.
Proof.
  unfold relation_set. cbn. f_equal.
  rewrite insert_insert_eq. f_equal.
  unfold databag at 1. cbn. rewrite lookup_insert_eq. cbn.
  apply insert_insert_eq.
Qed.

Lemma read_aggregate_written {Y : Yaml} `{!YamlRoundTrip Y} c relation m :
  read_aggregate c
    (relation_set relation (AppE (this_app c)) "data" (_serialize_data (VDict m)))
  = Some (VDict m).
Proof.
  unfold read_aggregate. rewrite databag_relation_set, decide_True by done.
  rewrite lookup_insert_eq. cbn [raw_truthy default from_option id].
  unfold _serialize_data.
  destruct (yaml_safe_dump _ 2) eqn:Hd; [by apply dump_nonempty in Hd|].
  cbn [str_truthy]. rewrite <- Hd. apply load_dump.
Qed.

Lemma updated_aggregate_eq data unit_name url :
  is_valid INGRESS_PROVIDES_APP_SCHEMA data = true →
  ∃ m ing, data = VDict m ∧ m !! "ingress" = Some (VDict ing)
    ∧ updated_aggregate data unit_name url
      = VDict (<[ "ingress" := VDict (<[ unit_name := url_entry url ]> ing) ]> m).
Proof.
  intros Hv. destruct (proj1 (is_valid_provides _) Hv) as (m & -> & ing & Hing & _).
  exists m, ing. cbn. by rewrite Hing.
Qed.

Lemma aggregate_urls_updated data unit_name url :
  is_valid INGRESS_PROVIDES_APP_SCHEMA data = true →
  aggregate_urls (updated_aggregate data unit_name url)
  = <[unit_name := VStr url]> (aggregate_urls data).
Proof.
  intros Hv. destruct (updated_aggregate_eq data unit_name url Hv)
    as (m & ing & -> & Hing & ->).
  cbn [aggregate_urls]. rewrite lookup_insert_eq, Hing.
  by apply omap_insert_Some.
Qed.

Lemma updated_aggregate_commute data u1 url1 u2 url2 :
  u1 ≠ u2 →
  updated_aggregate (updated_aggregate data u1 url1) u2 url2
  = updated_aggregate (updated_aggregate data u2 url2) u1 url1.
Proof.
  intros Hne. destruct data as [| | | |m]; try done. cbn.
  destruct (m !! "ingress") as [[| | | |ing]|] eqn:Hing; cbn; rewrite ?Hing; try done.
  rewrite !lookup_insert_eq, !insert_insert_eq. do 3 f_equal.
  by apply insert_insert_ne.
Qed.

Lemma updated_aggregate_overwrite data u url1 url2 :
  updated_aggregate (updated_aggregate data u url1) u url2
  = updated_aggregate data u url2.
Proof.
  destruct data as [| | | |m]; try done. cbn.
  destruct (m !! "ingress") as [[| | | |ing]|] eqn:Hing; cbn; rewrite ?Hing; try done.
  by rewrite !lookup_insert_eq, !insert_insert_eq.
Qed.

(** What a leader's [publish_url] does to a readable, valid aggregate, and
    what is read back afterwards. *)
Lemma publish_url_leader {Y : Yaml} `{!YamlRoundTrip Y} c unit_name url relation data :
  is_leader c = true →
  read_aggregate c relation = Some data →
  is_valid INGRESS_PROVIDES_APP_SCHEMA data = true →
  let relation' :=
    relation_set relation (AppE (this_app c)) "data"
      (_serialize_data (updated_aggregate data unit_name url)) in
  IngressPerUnitProvider.publish_url c unit_name url relation = (Return tt, relation')
  ∧ read_aggregate c relation' = Some (updated_aggregate data unit_name url)
  ∧ is_valid INGRESS_PROVIDES_APP_SCHEMA (updated_aggregate data unit_name url) = true.
Proof.
  intros Hl Hread Hv relation'. subst relation'.
  rewrite publish_url_eq, Hread, Hv, Hl. split; [done|].
  split; [|by apply updated_aggregate_valid].
  destruct (updated_aggregate_eq data unit_name url Hv) as (m & ing & _ & _ & ->).
  apply read_aggregate_written.
Qed.

Lemma requirer_url_eq {Y : Yaml} self u :
  IngressPerUnitRequirer.urls self = Return u →
  IngressPerUnitRequirer.url self
  = Return (u !! unit_name (this_unit (IngressPerUnitRequirer.charm self))).
Proof.
  intros Hu. unfold IngressPerUnitRequirer.url. rewrite Hu. cbn.
  case_bool_decide as He; [|done]. by rewrite He, lookup_empty.
Qed.

(** X1.  What the leader publishes with [publish_url] is what the requirer
    reads with [urls]: for a requirer that saw the mapping [u] before the call,
    [urls] is afterwards [u] with [unit_name] mapped to [url]; the URLs of the
    other units are kept. *)
Theorem publish_url_then_urls {Y : Yaml} (c : Charm) (unit_name url : string)
    (relation : Relation) (self self' : IngressPerUnitRequirer.t)
    (u : gmap string value) :
  YamlRoundTrip Y →
  is_leader c = true →
  str_truthy (app_name (this_app c)) = true →
  requirer_sees self (this_app c) relation →
  IngressPerUnitRequirer.urls self = Return u →
  requirer_sees self' (this_app c)
    (IngressPerUnitProvider.publish_url c unit_name url relation).2 →
  IngressPerUnitRequirer.urls self' = Return (<[unit_name := VStr url]> u).
Proof.
  intros HY Hl Hname Hsees Hu Hsees'.
  rewrite (urls_read c self relation Hsees Hname) in Hu.
  destruct (read_aggregate c relation) as [data|] eqn:Hread; [|done].
  destruct (is_valid INGRESS_PROVIDES_APP_SCHEMA data) eqn:Hv; [|done].
  injection Hu as <-.
  destruct (publish_url_leader c unit_name url relation data Hl Hread Hv)
    as (Hpub & Hread' & Hv').
  rewrite Hpub in Hsees'. cbn [snd] in Hsees'.
  rewrite (urls_read c self' _ Hsees' Hname), Hread', Hv'.
  by rewrite aggregate_urls_updated.
Qed.

(** X1, witness: the leader publishes the URL of [web/0] on a fresh relation;
    the requirer saw no URL before and sees this one afterwards. *)
Lemma publish_url_then_urls_witness :
  IngressPerUnitRequirer.urls (Y := PyYaml.yaml)
    (Examples.requirer [Examples.published_relation])
  = Return (<["web/0" := VStr "http://traefik/m1-web-0"]> ∅).
Proof.
  apply (publish_url_then_urls Examples.leader "web/0" "http://traefik/m1-web-0"
           Examples.fresh_relation (Examples.requirer [Examples.waiting_relation])).
  - exact yaml_round_trip.
  - reflexivity.
  - reflexivity.
  - split; [reflexivity|]. exists Examples.waiting_relation. repeat split; reflexivity.
  - reflexivity.
  - split; [reflexivity|]. exists Examples.published_relation.
    repeat split; vm_compute; reflexivity.
Defined.

(** X2.  After the leader has published [url] under the name of the
    requirer's own unit, on a partition that was absent, empty or valid, the
    requirer's [url] is that URL, and [is_ready] on its relation is [bool(url)]:
    true unless the published URL is the empty string. *)
Theorem publish_url_then_url {Y : Yaml} (c : Charm) (url : string)
    (relation : Relation) (self : IngressPerUnitRequirer.t) :
  YamlRoundTrip Y →
  is_leader c = true →
  str_truthy (app_name (this_app c)) = true →
  publishable c relation →
  requirer_sees self (this_app c)
    (IngressPerUnitProvider.publish_url c
       (unit_name (this_unit (IngressPerUnitRequirer.charm self))) url relation).2 →
  IngressPerUnitRequirer.url self = Return (Some (VStr url))
  ∧ ∀ seen, IngressPerUnitRequirer.relation self = Some seen →
      IngressPerUnitRequirer.is_ready self (Some seen) = Return (str_truthy url).
Proof.
  intros HY Hl Hname (data & Hread & Hv) Hsees.
  destruct (publish_url_leader c
              (unit_name (this_unit (IngressPerUnitRequirer.charm self)))
              url relation data Hl Hread Hv) as (Hpub & Hread' & Hv').
  rewrite Hpub in Hsees. cbn [snd] in Hsees.
  pose proof (urls_read c self _ Hsees Hname) as Hurls.
  rewrite Hread', Hv', aggregate_urls_updated in Hurls by done.
  pose proof (requirer_url_eq _ _ Hurls) as Hurl.
  rewrite lookup_insert_eq in Hurl. split; [done|].
  intros seen Hseen. destruct Hsees as (_ & seen' & Hseen' & Happ & _).
  rewrite Hseen in Hseen'. injection Hseen' as <-.
  unfold IngressPerUnitRequirer.is_ready, _IngressPerUnitBase.is_ready,
    _IngressPerUnitBase.is_ready_rel.
  rewrite Happ, Hname. cbn. rewrite Hurl. done.
Qed.

(** X2, witness: unit [web/0] after the leader has published its URL. *)
Lemma publish_url_then_url_witness :
  IngressPerUnitRequirer.url (Y := PyYaml.yaml)
    (Examples.requirer [Examples.published_relation])
  = Return (Some (VStr "http://traefik/m1-web-0"))
  ∧ ∀ seen,
      IngressPerUnitRequirer.relation (Examples.requirer [Examples.published_relation])
      = Some seen →
      IngressPerUnitRequirer.is_ready (Y := PyYaml.yaml)
        (Examples.requirer [Examples.published_relation]) (Some seen)
      = Return true.
Proof.
  apply (publish_url_then_url Examples.leader "http://traefik/m1-web-0"
           Examples.fresh_relation (Examples.requirer [Examples.published_relation])).
  - exact yaml_round_trip.
  - reflexivity.
  - reflexivity.
  - eexists. split; reflexivity.
  - split; [reflexivity|]. exists Examples.published_relation.
    repeat split; vm_compute; reflexivity.
Defined.

(** X3.  Two calls of [publish_url] for different unit names give the same
    outcome and the same relation in either order, whatever the partition held
    and whoever calls. *)
Theorem publish_url_commute {Y : Yaml} (c : Charm) (u1 url1 u2 url2 : string)
    (relation : Relation) :
  YamlRoundTrip Y →
  u1 ≠ u2 →
  (IngressPerUnitProvider.publish_url c u1 url1;;
   IngressPerUnitProvider.publish_url c u2 url2) relation
  = (IngressPerUnitProvider.publish_url c u2 url2;;
     IngressPerUnitProvider.publish_url c u1 url1) relation.
Proof.
  intros HY Hne. unfold mbind, M_bind.
  destruct (read_aggregate c relation) as [data|] eqn:Hread.
  2: { by rewrite !(publish_url_eq c _ _ relation), Hread. }
  destruct (is_valid INGRESS_PROVIDES_APP_SCHEMA data) eqn:Hv.
  2: { rewrite !(publish_url_eq c _ _ relation), Hread, Hv.
       by rewrite !(publish_url_eq c _ _ relation), Hread, Hv. }
  destruct (is_leader c) eqn:Hl.
  2: { by rewrite !(publish_url_eq c _ _ relation), Hread, Hv, Hl. }
  destruct (publish_url_leader c u1 url1 relation data Hl Hread Hv)
    as (-> & Hread1 & Hv1).
  destruct (publish_url_leader c u2 url2 relation data Hl Hread Hv)
    as (-> & Hread2 & Hv2).
  destruct (publish_url_leader c u2 url2 _ _ Hl Hread1 Hv1) as (-> & _).
  destruct (publish_url_leader c u1 url1 _ _ Hl Hread2 Hv2) as (-> & _).
  rewrite !relation_set_set. by rewrite updated_aggregate_commute.
Qed.

(** X3, witness: the URLs of [web/0] and [web/1], published in both
    orders. *)
Lemma publish_url_commute_witness :
  (IngressPerUnitProvider.publish_url (Y := PyYaml.yaml) Examples.leader
     "web/0" "http://traefik/m1-web-0";;
   IngressPerUnitProvider.publish_url Examples.leader
     "web/1" "http://traefik/m1-web-1") Examples.fresh_relation
  = (IngressPerUnitProvider.publish_url (Y := PyYaml.yaml) Examples.leader
       "web/1" "http://traefik/m1-web-1";;
     IngressPerUnitProvider.publish_url Examples.leader
       "web/0" "http://traefik/m1-web-0") Examples.fresh_relation.
Proof.
  apply (publish_url_commute Examples.leader); [exact yaml_round_trip | done].
Defined.

(** X4.  A [publish_url] for a unit name replaces what an earlier one
    published for it: the two calls in sequence leave the outcome and the
    relation of the second call alone. *)
Theorem publish_url_last_wins {Y : Yaml} (c : Charm) (unit_name url1 url2 : string)
    (relation : Relation) :
  YamlRoundTrip Y →
  (IngressPerUnitProvider.publish_url c unit_name url1;;
   IngressPerUnitProvider.publish_url c unit_name url2) relation
  = IngressPerUnitProvider.publish_url c unit_name url2 relation.
Proof.
  intros HY. unfold mbind, M_bind.
  destruct (read_aggregate c relation) as [data|] eqn:Hread.
  2: { by rewrite !(publish_url_eq c _ _ relation), Hread. }
  destruct (is_valid INGRESS_PROVIDES_APP_SCHEMA data) eqn:Hv.
  2: { rewrite !(publish_url_eq c _ _ relation), Hread, Hv.
       by rewrite !(publish_url_eq c _ _ relation), Hread, Hv. }
  destruct (is_leader c) eqn:Hl.
  2: { by rewrite !(publish_url_eq c _ _ relation), Hread, Hv, Hl. }
  destruct (publish_url_leader c unit_name url1 relation data Hl Hread Hv)
    as (-> & Hread1 & Hv1).
  destruct (publish_url_leader c unit_name url2 relation data Hl Hread Hv)
    as (-> & _).
  destruct (publish_url_leader c unit_name url2 _ _ Hl Hread1 Hv1) as (-> & _).
  by rewrite relation_set_set, updated_aggregate_overwrite.
Qed.

(** X4, witness: the URL of [web/0] is published, then replaced. *)
Lemma publish_url_last_wins_witness :
  (IngressPerUnitProvider.publish_url (Y := PyYaml.yaml) Examples.leader
     "web/0" "http://old/m1-web-0";;
   IngressPerUnitProvider.publish_url Examples.leader
     "web/0" "http://traefik/m1-web-0") Examples.fresh_relation
  = IngressPerUnitProvider.publish_url (Y := PyYaml.yaml) Examples.leader
      "web/0" "http://traefik/m1-web-0" Examples.fresh_relation.
Proof.
  apply (publish_url_last_wins Examples.leader). exact yaml_round_trip.
Defined.

(** X5.  [wipe_ingress_data] by the leader stores the empty string, whatever
    the partition held, a corrupt document included.  A requirer then reads no
    URL, without an error, and the next [publish_url] starts from the empty
    aggregate: it writes an aggregate with its one entry. *)
Theorem wipe_ingress_data_resets {Y : Yaml} (c : Charm) (relation : Relation) :
  is_leader c = true →
  let '(res, relation') := IngressPerUnitProvider.wipe_ingress_data c relation in
  res = Return tt
  ∧ databag relation' (AppE (this_app c)) !! "data" = Some ""
  ∧ (∀ self, requirer_sees self (this_app c) relation' →
       IngressPerUnitRequirer.urls self = Return ∅)
  ∧ (∀ unit_name url,
       IngressPerUnitProvider.publish_url c unit_name url relation'
       = (Return tt,
          relation_set relation (AppE (this_app c)) "data"
            (_serialize_data
               (VDict {[ "ingress" := VDict {[ unit_name := url_entry url ]} ]})))).
Proof.
  intros Hl. unfold IngressPerUnitProvider.wipe_ingress_data, databag_setitem.
  rewrite leader_is_mutable by done.
  assert (databag (relation_set relation (AppE (this_app c)) "data" "")
            (AppE (this_app c)) !! "data" = Some "") as Hraw.
  { rewrite databag_relation_set, decide_True by done. apply lookup_insert_eq. }
  split; [done|]. split; [done|]. split.
  - intros self (Hb & seen & Hrel & Happ & Hdata).
    unfold IngressPerUnitRequirer.urls. rewrite Hrel, Hb, Happ.
    destruct (str_truthy (app_name (this_app c))); [|done].
    cbn [mbind result_bind]. rewrite (databag_same _ _ _ Hdata), Hraw. done.
  - intros unit_name url. rewrite publish_url_eq. unfold read_aggregate.
    rewrite Hraw. cbn [raw_truthy str_truthy].
    rewrite (proj2 (is_valid_provides _)), Hl.
    + by rewrite relation_set_set.
    + eexists. split; [done|]. exists ∅. rewrite lookup_singleton_eq.
      split; [done|]. apply map_Forall_empty.
Qed.

(** X5, witness: the leader wipes a partition that holds a corrupt
    document. *)
Lemma wipe_ingress_data_resets_witness :
  let '(res, relation') :=
    IngressPerUnitProvider.wipe_ingress_data Examples.leader Examples.corrupt_relation in
  res = Return tt
  ∧ databag relation' (AppE Examples.traefik) !! "data" = Some ""
  ∧ (∀ self, requirer_sees self Examples.traefik relation' →
       IngressPerUnitRequirer.urls (Y := PyYaml.yaml) self = Return ∅)
  ∧ (∀ unit_name url,
       IngressPerUnitProvider.publish_url (Y := PyYaml.yaml) Examples.leader
         unit_name url relation'
       = (Return tt,
          relation_set Examples.corrupt_relation (AppE Examples.traefik) "data"
            (_serialize_data
               (VDict {[ "ingress" := VDict {[ unit_name := url_entry url ]} ]})))).
Proof.
  apply (wipe_ingress_data_resets Examples.leader Examples.corrupt_relation).
  reflexivity.
Defined.

(** ** What the provider fetches *)

Lemma fetch_remote_units_ext {Y : Yaml} r1 r2 validate us acc :
  (∀ e, databag r1 e !! "data" = databag r2 e !! "data") →
  IngressPerUnitProvider.fetch_remote_units r1 validate us acc
  = IngressPerUnitProvider.fetch_remote_units r2 validate us acc.
Proof.
  intros Hd. revert acc. induction us as [|u us IH]; intros acc; [done|].
  cbn [IngressPerUnitProvider.fetch_remote_units]. rewrite Hd.
  match goal with |- ?m ≫= _ = _ => destruct m as [d|] end;
    cbn [mbind result_bind]; [apply IH | done].
Qed.

(** [_fetch_relation_data] reads the remote application, the units and the
    [data] key of the databags, and nothing else of a relation. *)
Lemma fetch_relation_data_ext {Y : Yaml} c r1 r2 validate :
  rel_app r1 = rel_app r2 → rel_units r1 = rel_units r2 →
  (∀ e, databag r1 e !! "data" = databag r2 e !! "data") →
  IngressPerUnitProvider._fetch_relation_data c r1 validate
  = IngressPerUnitProvider._fetch_relation_data c r2 validate.
Proof.
  intros Ha Hu Hd. unfold IngressPerUnitProvider._fetch_relation_data.
  rewrite Ha, Hu, Hd. by rewrite (fetch_remote_units_ext r1 r2).
Qed.

(** X6.  [_share_version_info] never raises and never touches a [data] key:
    what [_fetch_relation_data] returns is the same before and after it.  The
    leader gets [_supported_versions] set to ["- v1"] in the application
    databag; for any other unit the relation is left as it was. *)
Theorem share_version_info_keeps_data {Y : Yaml} (c : Charm) (relation : Relation) :
  let '(res, relation') := IngressPerUnitProvider._share_version_info c relation in
  res = Return tt
  ∧ (∀ e, databag relation' e !! "data" = databag relation e !! "data")
  ∧ (∀ validate,
       IngressPerUnitProvider._fetch_relation_data c relation' validate
       = IngressPerUnitProvider._fetch_relation_data c relation validate)
  ∧ (if is_leader c
     then databag relation' (AppE (this_app c)) !! "_supported_versions" = Some "- v1"
     else relation' = relation).
Proof.
  unfold IngressPerUnitProvider._share_version_info.
  destruct (is_leader c) eqn:Hl; [|done].
  unfold databag_setitem. rewrite leader_is_mutable by done.
  assert (∀ e, databag (relation_set relation (AppE (this_app c))
                          "_supported_versions" "- v1") e !! "data"
               = databag relation e !! "data") as Hd.
  { intros e. rewrite databag_relation_set. case_decide as He; [|done].
    subst e. by rewrite lookup_insert_ne. }
  split; [done|]. split; [done|]. split.
  - intros validate. by apply fetch_relation_data_ext.
  - rewrite databag_relation_set, decide_True by done. apply lookup_insert_eq.
Qed.

Lemma odict_set_keys {V} (d : list (Unit * V)) k x :
  (odict_set d k x).*1 = if decide (k ∈ d.*1) then d.*1 else (d.*1 ++ [k])%list.
Proof.
  induction d as [|[k' y] d IH]; [done|]. cbn [odict_set].
  destruct (decide (k' = k)) as [->|Hk].
  - cbn. rewrite decide_True by (by apply elem_of_cons; left). done.
  - cbn [fmap list_fmap fst]. rewrite IH. cbn.
    destruct (decide (k ∈ d.*1)) as [Hin|Hin].
    + rewrite decide_True by (by apply elem_of_cons; right). done.
    + rewrite decide_False; [done|]. by intros [->|?]%elem_of_cons.
Qed.

Lemma odict_set_elem {V} (d : list (Unit * V)) k x kv :
  kv ∈ odict_set d k x → kv = (k, x) ∨ kv ∈ d.
Proof.
  induction d as [|[k' y] d IH]; cbn [odict_set].
  - intros ->%list_elem_of_singleton. by left.
  - destruct (decide (k' = k)) as [->|Hk].
    + intros [->|Hin]%elem_of_cons; [by left|]. right. by apply elem_of_cons; right.
    + intros [->|Hin]%elem_of_cons; [right; by apply elem_of_cons; left|].
      destruct (IH Hin) as [->|Hd]; [by left|]. right. by apply elem_of_cons; right.
Qed.

Lemma odict_set_lookup {V} (d : list (Unit * V)) k x :
  (k, x) ∈ odict_set d k x.
Proof.
  induction d as [|[k' y] d IH]; cbn [odict_set].
  - by apply list_elem_of_singleton.
  - destruct (decide (k' = k)) as [->|Hk]; [by apply elem_of_cons; left|].
    by apply elem_of_cons; right.
Qed.

Lemma odict_set_other {V} (d : list (Unit * V)) k x kv :
  kv ∈ d → kv.1 ≠ k → kv ∈ odict_set d k x.
Proof.
  induction d as [|[k' y] d IH]; cbn [odict_set]; [by intros ?%elem_of_nil|].
  intros [->|Hin]%elem_of_cons Hne.
  - cbn in Hne. rewrite decide_False by done. by apply elem_of_cons; left.
  - destruct (decide (k' = k)) as [->|Hk]; apply elem_of_cons; right; [done|].
    by apply IH.
Qed.

(** The record of one unit, as the loop of [_fetch_relation_data] computes
    it. *)
Lemma fetch_unit_record {Y : Yaml} relation (validate : bool) u (d : value) :
  (let remote_data := databag relation (UnitE u) !! "data" in
   if raw_truthy remote_data then
     x ← _deserialize_data (default "" remote_data);
     (if validate then _validate_data x INGRESS_REQUIRES_UNIT_SCHEMA
      else Return tt);;
     Return x
   else Return (VDict ∅) : result value) = Return d
  ↔ unit_record relation validate u d.
Proof.
  unfold unit_record. cbv zeta.
  destruct (raw_truthy _); [|split; [by intros [= <-] | by intros ->]].
  unfold _deserialize_data, _validate_data.
  destruct (yaml_safe_load _) as [d'|]; cbn [mbind result_bind].
  2: { split; [done | by intros [? _]]. }
  destruct validate; cbn [mbind result_bind].
  - destruct (is_valid _ d') eqn:Hv; cbn [mbind result_bind].
    + split; [by intros [= <-] | by intros [[= <-] _]].
    + split; [done|]. intros [[= <-] Hv']. specialize (Hv' eq_refl). congruence.
  - split; [by intros [= <-] | by intros [[= <-] _]].
Qed.

Lemma fetch_remote_units_spec {Y : Yaml} relation validate us acc items :
  IngressPerUnitProvider.fetch_remote_units relation validate us acc = Return items →
  (NoDup (acc.*1 ++ us) → items.*1 = (acc.*1 ++ us)%list)
  ∧ (∀ u, u ∈ us → ∃ d, (u, d) ∈ items ∧ unit_record relation validate u d)
  ∧ (∀ kv, kv ∈ items → kv ∈ acc ∨ (kv.1 ∈ us ∧ unit_record relation validate kv.1 kv.2))
  ∧ (∀ kv, kv ∈ acc → kv.1 ∉ us → kv ∈ items).
Proof.
  revert acc. induction us as [|u us IH]; intros acc.
  - intros [= <-]. split; [by rewrite app_nil_r|]. split; [by intros u ?%elem_of_nil|].
    split; [by left | done].
  - cbn [IngressPerUnitProvider.fetch_remote_units].
    match goal with |- ?m ≫= _ = _ → _ => destruct m as [d|] eqn:Hd end;
      cbn [mbind result_bind]; [|done].
    apply fetch_unit_record in Hd. intros Hrest.
    destruct (IH _ Hrest) as (IHk & IHu & IHe & IHa). split; [|split; [|split]].
    + intros Hnd.
      assert (u ∉ acc.*1) as Hnin.
      { apply NoDup_app in Hnd as (_ & Hnd & _). intros Hin. apply (Hnd u Hin).
        by apply elem_of_cons; left. }
      rewrite IHk; rewrite odict_set_keys, decide_False by done;
        by rewrite <- app_assoc.
    + intros u' [->|Hin]%elem_of_cons; [|by apply IHu].
      destruct (decide (u ∈ us)) as [Hin|Hnin]; [by apply IHu|].
      exists d. split; [|done]. apply IHa; [apply odict_set_lookup | done].
    + intros kv Hkv. destruct (IHe kv Hkv) as [Hacc|[Hin Hrec]].
      * destruct (odict_set_elem _ _ _ _ Hacc) as [->|Hacc']; [|by left].
        right. split; [by apply elem_of_cons; left | done].
      * right. split; [by apply elem_of_cons; right | done].
    + intros kv Hkv Hnin. apply IHa.
      * apply odict_set_other; [done|]. intros Heq. apply Hnin. rewrite Heq.
        by apply elem_of_cons; left.
      * intros Hin. apply Hnin. by apply elem_of_cons; right.
Qed.

Lemma unit_record_inj {Y : Yaml} relation validate u d1 d2 :
  unit_record relation validate u d1 → unit_record relation validate u d2 → d1 = d2.
Proof.
  unfold unit_record. cbv zeta. destruct (raw_truthy _).
  - intros [H1 _] [H2 _]. congruence.
  - congruence.
Qed.

Lemma resolved_app relation :
  ¬ unresolved relation →
  ∃ a, rel_app relation = Some a ∧ str_truthy (app_name a) = true.
Proof.
  unfold unresolved. destruct (rel_app relation) as [a|]; [|by intros []].
  intros Hn. exists a. split; [done|]. by destruct (app_name a).
Qed.

Lemma fetch_relation_data_resolved {Y : Yaml} c relation validate p items :
  IngressPerUnitProvider._fetch_relation_data c relation validate = Return (p, items) →
  ¬ unresolved relation →
  IngressPerUnitProvider.fetch_remote_units relation validate
    (remote_units c relation) [] = Return items
  ∧ (is_leader c = false → p = VDict ∅).
Proof.
  intros Hf (a & Ha & Hn)%resolved_app.
  unfold IngressPerUnitProvider._fetch_relation_data in Hf.
  rewrite Ha, Hn in Hf. cbn [negb] in Hf.
  destruct (is_leader c).
  - match type of Hf with ?m ≫= _ = _ => destruct m as [p'|] end;
      cbn [mbind result_bind] in Hf; [|done].
    unfold remote_units.
    destruct (IngressPerUnitProvider.fetch_remote_units _ _ _ _) as [items'|];
      cbn [mbind result_bind] in Hf; [|done].
    by injection Hf as _ <-.
  - cbn [mbind result_bind] in Hf. unfold remote_units.
    destruct (IngressPerUnitProvider.fetch_remote_units _ _ _ _) as [items'|];
      cbn [mbind result_bind] in Hf; [|done].
    by injection Hf as <- <-.
Qed.

(** The records fetched on a resolved relation: one for every unit of the
    relation that is not of this application, and no other. *)
Lemma fetch_relation_data_items {Y : Yaml} c relation validate p items :
  IngressPerUnitProvider._fetch_relation_data c relation validate = Return (p, items) →
  ¬ unresolved relation →
  ∀ u d, (u, d) ∈ items
         ↔ u ∈ rel_units relation ∧ unit_app u ≠ this_app c
           ∧ unit_record relation validate u d.
Proof.
  intros Hf Hres.
  destruct (fetch_relation_data_resolved _ _ _ _ _ Hf Hres) as [Hloop _].
  destruct (fetch_remote_units_spec _ _ _ _ _ Hloop) as (_ & Hu & He & _).
  intros u d. split.
  - intros Hin. destruct (He _ Hin) as [[]%elem_of_nil|[Hrem Hrec]].
    cbn in Hrem, Hrec. apply list_elem_of_filter in Hrem as [Happ Hrem]. done.
  - intros (Hin & Happ & Hrec).
    destruct (Hu u) as (d' & Hin' & Hrec').
    { by apply list_elem_of_filter. }
    by rewrite (unit_record_inj _ _ _ _ _ Hrec Hrec').
Qed.

(** X7.  What [_fetch_relation_data] returns.  On a relation whose remote
    application is not resolved: two empty dictionaries.  Otherwise
    [requirer_unit_data] has an entry for a unit exactly when the unit belongs
    to the relation and is not of this application, in the order of the units;
    the entry is [{}] for a unit with no or empty data and the loaded document
    otherwise, validated when validation was asked for; and the provider part
    is empty for a unit that is not the leader. *)
Theorem fetch_relation_data_units {Y : Yaml} (c : Charm) (relation : Relation)
    (validate : bool) (p : value) (items : list (Unit * value)) :
  IngressPerUnitProvider._fetch_relation_data c relation validate = Return (p, items) →
  (unresolved relation → p = VDict ∅ ∧ items = [])
  ∧ (¬ unresolved relation →
       (∀ u d, (u, d) ∈ items
               ↔ u ∈ rel_units relation ∧ unit_app u ≠ this_app c
                 ∧ unit_record relation validate u d)
       ∧ (NoDup (rel_units relation) →
          items.*1 = filter (λ u, unit_app u ≠ this_app c) (rel_units relation))
       ∧ (is_leader c = false → p = VDict ∅)).
Proof.
  intros Hf. split.
  - intros Hun. unfold IngressPerUnitProvider._fetch_relation_data, unresolved in *.
    destruct (rel_app relation) as [a|].
    + rewrite Hun in Hf. cbn in Hf. by injection Hf as <- <-.
    + by injection Hf as <- <-.
  - intros Hres. split; [by eapply fetch_relation_data_items|].
    destruct (fetch_relation_data_resolved _ _ _ _ _ Hf Hres) as [Hloop Hp].
    split; [|done]. intros Hnd.
    destruct (fetch_remote_units_spec _ _ _ _ _ Hloop) as (Hk & _).
    apply Hk. cbn. by apply NoDup_filter.
Qed.

(** X7, witness: the leader fetches a relation on which no unit has published
    yet. *)
Lemma fetch_relation_data_units_witness :
  let relation := Examples.fresh_relation in
  let items := [(Examples.web_0, VDict ∅); (Examples.web_1, VDict ∅)] in
  (unresolved relation → VDict ∅ = VDict ∅ ∧ items = [])
  ∧ (¬ unresolved relation →
       (∀ u d, (u, d) ∈ items
               ↔ u ∈ rel_units relation ∧ unit_app u ≠ Examples.traefik
                 ∧ unit_record (Y := PyYaml.yaml) relation true u d)
       ∧ (NoDup (rel_units relation) →
          items.*1 = filter (λ u, unit_app u ≠ Examples.traefik) (rel_units relation))
       ∧ (is_leader Examples.leader = false → VDict ∅ = VDict ∅)).
Proof.
  apply (fetch_relation_data_units (Y := PyYaml.yaml) Examples.leader
           Examples.fresh_relation true).
  reflexivity.
Defined.

(** X8.  When the provider's [is_ready] is true for a relation, some unit of
    the relation, of another application than the provider's, passes
    [is_unit_ready]. *)
Theorem provider_is_ready_some_unit {Y : Yaml} (self : IngressPerUnitProvider.t)
    (relation : Relation) :
  IngressPerUnitProvider.is_ready self (Some relation) = Return true →
  ∃ u, unit_app u ≠ this_app (IngressPerUnitProvider.charm self)
       ∧ IngressPerUnitProvider.is_unit_ready relation u = Some true.
Proof.
  cbn [IngressPerUnitProvider.is_ready]. unfold IngressPerUnitProvider.is_ready_rel.
  destruct (_IngressPerUnitBase.is_ready_rel relation) as [[]|] eqn:Hb;
    cbn [mbind result_bind negb]; try done.
  assert (¬ unresolved relation) as Hres.
  { unfold _IngressPerUnitBase.is_ready_rel, unresolved in *.
    destruct (rel_app relation) as [a|]; [|done].
    by destruct (app_name a). }
  destruct (IngressPerUnitProvider._fetch_relation_data _ _ _) as [[p items]|] eqn:Hf;
    [|done].
  intros [= Hex]. apply existsb_exists in Hex as (d & Hd & Ht).
  apply list_elem_of_In, list_elem_of_fmap in Hd as ([u d'] & -> & Hin). cbn in Ht.
  apply (fetch_relation_data_items _ _ _ _ _ Hf Hres) in Hin as (Hu & Happ & Hrec).
  exists u. split; [done|]. unfold IngressPerUnitProvider.is_unit_ready.
  rewrite bool_decide_eq_true_2 by done.
  unfold unit_record in Hrec. cbv zeta in Hrec.
  destruct (raw_truthy _); [done|]. by subst d'.
Qed.

(** X8, witness: a relation on which two requirer units have published. *)
Lemma provider_is_ready_some_unit_witness :
  ∃ u, unit_app u ≠ Examples.traefik
       ∧ IngressPerUnitProvider.is_unit_ready Examples.mismatch_relation u = Some true.
Proof.
  apply (provider_is_ready_some_unit (Y := PyYaml.yaml)
           (Examples.provider Examples.leader [Examples.mismatch_relation])).
  vm_compute. reflexivity.
Defined.

(** The loop of [is_failed] over validated records returns only when the
    models agree: every record read after a non-empty expected model reports
    that model, and any two non-empty models are the same. *)
Lemma check_models_consistent relation items expected :
  Forall (λ kv, ∃ m, kv.2 = VDict m
                     ∧ (m !! "model" = None ∨ ∃ s, m !! "model" = Some (VStr s))) items →
  expected = VNull ∨ (∃ e, expected = VStr e) →
  IngressPerUnitProvider.check_models relation items expected = Return tt →
  (∀ e, expected = VStr e → e ≠ "" →
     ∀ kv s, kv ∈ items → model_of kv.2 = Some s → s = e)
  ∧ (∀ kv1 kv2 s1 s2, kv1 ∈ items → kv2 ∈ items →
       model_of kv1.2 = Some s1 → model_of kv2.2 = Some s2 →
       s1 ≠ "" → s2 ≠ "" → s1 = s2).
Proof.
  intros Hall. revert expected.
  induction Hall as [|[u d] items (m & Hd & Hm) _ IH]; intros expected Hexp.
  - intros _. split; [intros ???? ? []%elem_of_nil | intros ???? []%elem_of_nil].
  - cbn in Hd. subst d. cbn [IngressPerUnitProvider.check_models py_contains mbind result_bind].
    destruct Hm as [Hm|[s Hm]].
    + rewrite bool_decide_eq_false_2 by (rewrite Hm; by intros [? [=]]).
      intros (IH1 & IH2)%IH; [|done].
      assert (model_of (VDict m) = None) as Hnone by (cbn; by rewrite Hm).
      split.
      * intros e He Hne kv s' [->|Hin]%elem_of_cons; [cbn; by rewrite Hm|].
        by eapply IH1.
      * intros kv1 kv2 s1 s2 [->|Hin1]%elem_of_cons [->|Hin2]%elem_of_cons;
          cbn [snd]; rewrite ?Hnone; try done. by eapply IH2.
    + rewrite bool_decide_eq_true_2 by (rewrite Hm; eauto).
      cbn [py_getitem]. rewrite Hm. cbn [mbind result_bind].
      assert (model_of (VDict m) = Some s) as Hsome by (cbn; by rewrite Hm).
      destruct (truthy expected) eqn:Ht; cbn [negb].
      * destruct Hexp as [->|[e ->]]; [done|]. cbn [py_eq].
        case_bool_decide as Hes; cbn [negb]; [|done]. subst s.
        intros (IH1 & IH2)%IH; [|eauto].
        assert (e ≠ "") as Hne by (by destruct e).
        assert (∀ kv s, kv ∈ (u, VDict m) :: items → model_of kv.2 = Some s → s = e)
          as Hall'.
        { intros kv s' [->|Hin]%elem_of_cons; [cbn [snd]; congruence|].
          by eapply IH1. }
        split.
        -- intros e' [= <-] _. apply Hall'.
        -- intros kv1 kv2 s1 s2 Hin1 Hin2 Hs1 Hs2 _ _.
           by rewrite (Hall' _ _ Hin1 Hs1), (Hall' _ _ Hin2 Hs2).
      * intros (IH1 & IH2)%IH; [|eauto]. split.
        -- intros e -> Hne. by destruct e.
        -- intros kv1 kv2 s1 s2 [->|Hin1]%elem_of_cons [->|Hin2]%elem_of_cons;
             cbn [snd]; rewrite ?Hsome.
           ++ congruence.
           ++ intros [= <-] Hs2 Hne1 _. symmetry. by eapply IH1.
           ++ intros Hs1 [= <-] _ Hne2. by eapply IH1.
           ++ by eapply IH2.
Qed.

(** X9.  What a false [is_failed] of the provider guarantees on a resolved
    relation: for every remote unit that has published a non-empty text,
    [get_data] with validation returns a record with the four typed fields; and
    the non-empty models of any two such units are the same. *)
Theorem provider_is_failed_false_sound {Y : Yaml} (self : IngressPerUnitProvider.t)
    (relation : Relation) :
  IngressPerUnitProvider.is_failed self (Some relation) = Return false →
  ¬ unresolved relation →
  let published u :=
    u ∈ rel_units relation
    ∧ unit_app u ≠ this_app (IngressPerUnitProvider.charm self)
    ∧ raw_truthy (databag relation (UnitE u) !! "data") = true in
  (∀ u, published u →
     ∃ m, IngressPerUnitProvider.get_data relation u true = Return (VDict m)
          ∧ requirer_record m)
  ∧ (∀ u1 u2 d1 d2 s1 s2,
       published u1 → published u2 →
       IngressPerUnitProvider.get_data relation u1 true = Return d1 →
       IngressPerUnitProvider.get_data relation u2 true = Return d2 →
       model_of d1 = Some s1 → model_of d2 = Some s2 →
       s1 ≠ "" → s2 ≠ "" → s1 = s2).
Proof.
  intros Hfail Hres published.
  destruct (resolved_app _ Hres) as (a & Ha & Hn).
  cbn [IngressPerUnitProvider.is_failed] in Hfail.
  unfold IngressPerUnitProvider.is_failed_rel in Hfail.
  rewrite Ha, Hn in Hfail. cbn [negb] in Hfail.
  case_bool_decide as Hunits.
  { split; [intros u (Hin & _) | intros u1 ????? (Hin & _)];
      rewrite Hunits in Hin; by apply elem_of_nil in Hin. }
  destruct (IngressPerUnitProvider._fetch_relation_data _ _ _) as [[p items]|e] eqn:Hf.
  2: { by destruct e. }
  destruct (IngressPerUnitProvider.check_models _ _ _) as [[]|] eqn:Hcheck; [|done].
  clear Hfail.
  pose proof (fetch_relation_data_items _ _ _ _ _ Hf Hres) as Hitems.
  (* what [get_data] returns for a unit that has published *)
  assert (∀ u d, published u →
            (IngressPerUnitProvider.get_data relation u true = Return d
             ↔ (u, d) ∈ items)) as Hget.
  { intros u d (Hin & Happ & Hraw). rewrite Hitems.
    unfold IngressPerUnitProvider.get_data, unit_record. cbv zeta. rewrite Hraw.
    destruct (databag relation (UnitE u) !! "data") as [raw|]; [|done].
    cbn [default from_option id]. unfold _deserialize_data, _validate_data.
    destruct (yaml_safe_load raw) as [d'|]; cbn [mbind result_bind].
    2: { split; [done | by intros (_ & _ & ? & _)]. }
    destruct (is_valid _ d') eqn:Hv; cbn [mbind result_bind].
    - split; [by intros [= <-] | by intros (_ & _ & [= <-] & _)].
    - split; [done|]. intros (_ & _ & [= <-] & Hv'). specialize (Hv' eq_refl).
      congruence. }
  assert (Forall (λ kv, ∃ m, kv.2 = VDict m
            ∧ (m !! "model" = None ∨ ∃ s, m !! "model" = Some (VStr s))) items) as Hty.
  { apply Forall_forall. intros [u d] Hin. apply Hitems in Hin as (_ & _ & Hrec).
    unfold unit_record in Hrec. cbv zeta in Hrec. cbn [snd].
    destruct (raw_truthy _).
    - destruct Hrec as [_ Hv]. specialize (Hv eq_refl).
      apply is_valid_requires in Hv as (m & -> & (s & Hs) & _). eauto.
    - subst d. exists ∅. split; [done|]. left. apply lookup_empty. }
  destruct (check_models_consistent _ _ _ Hty (or_introl eq_refl) Hcheck) as [_ Hpair].
  split.
  - intros u Hpub. pose proof Hpub as (Hin & Happ & Hraw).
    destruct (fetch_relation_data_resolved _ _ _ _ _ Hf Hres) as [Hloop _].
    destruct (fetch_remote_units_spec _ _ _ _ _ Hloop) as (_ & Hu & _).
    destruct (Hu u) as (d & Hd & Hrec); [by apply list_elem_of_filter|].
    unfold unit_record in Hrec. cbv zeta in Hrec. rewrite Hraw in Hrec.
    destruct Hrec as [_ Hv]. specialize (Hv eq_refl).
    apply is_valid_requires in Hv as (m & -> & Hm).
    exists m. split; [by apply Hget | done].
  - intros u1 u2 d1 d2 s1 s2 Hp1 Hp2 Hg1%Hget Hg2%Hget; [|done..].
    apply (Hpair (u1, d1) (u2, d2)); done.
Qed.

(** X9, witness: two requirer units that report the same model. *)
Lemma provider_is_failed_false_sound_witness :
  let relation := Examples.agreeing_relation in
  let published u :=
    u ∈ rel_units relation
    ∧ unit_app u ≠ Examples.traefik
    ∧ raw_truthy (databag relation (UnitE u) !! "data") = true in
  (∀ u, published u →
     ∃ m, IngressPerUnitProvider.get_data (Y := PyYaml.yaml) relation u true
          = Return (VDict m)
          ∧ requirer_record m)
  ∧ (∀ u1 u2 d1 d2 s1 s2,
       published u1 → published u2 →
       IngressPerUnitProvider.get_data (Y := PyYaml.yaml) relation u1 true = Return d1 →
       IngressPerUnitProvider.get_data (Y := PyYaml.yaml) relation u2 true = Return d2 →
       model_of d1 = Some s1 → model_of d2 = Some s2 →
       s1 ≠ "" → s2 ≠ "" → s1 = s2).
Proof.
  apply (provider_is_failed_false_sound (Y := PyYaml.yaml)
           (Examples.provider Examples.leader [Examples.agreeing_relation])
           Examples.agreeing_relation).
  - vm_compute. reflexivity.
  - intros H. vm_compute in H. discriminate.
Defined.

(** X10.  After a [publish_ingress_data] that returned, on a resolved
    relation, the provider part of whatever [_fetch_relation_data] returns,
    with or without validation, is the published mapping; and
    [proxied_endpoints] of a provider with that one relation is that mapping,
    as soon as the fetch returns. *)
Theorem publish_ingress_data_then_fetch {Y : Yaml} (c : Charm) (data : value)
    (relation relation' : Relation) :
  YamlRoundTrip Y →
  IngressPerUnitProvider.publish_ingress_data c data relation = (Return tt, relation') →
  ¬ unresolved relation →
  (∀ validate p items,
     IngressPerUnitProvider._fetch_relation_data c relation' validate = Return (p, items) →
     p = data)
  ∧ (∀ self,
       IngressPerUnitProvider.charm self = c →
       IngressPerUnitProvider.relations self = [relation'] →
       returns (IngressPerUnitProvider._fetch_relation_data c relation' false) = true →
       ∃ ing, data = VDict ing
              ∧ IngressPerUnitProvider.proxied_endpoints self = inr ing).
Proof.
  intros HY Hpub (a & Ha & Hn)%resolved_app.
  unfold IngressPerUnitProvider.publish_ingress_data in Hpub.
  cbn [mbind M_bind get] in Hpub.
  destruct (is_leader c) eqn:Hl; cbn [negb] in Hpub; [|done].
  unfold lift, _validate_data in Hpub.
  destruct (is_valid _ _) eqn:Hv; [|done].
  unfold databag_setitem in Hpub. rewrite leader_is_mutable in Hpub by done.
  injection Hpub as <-.
  destruct (proj1 (is_valid_provides _) Hv) as (m & [= <-] & ing & Hing & _).
  rewrite lookup_singleton_eq in Hing. injection Hing as ->.
  match type of Hv with
  | is_valid _ ?wrapped = _ =>
      assert (∀ validate p items,
        IngressPerUnitProvider._fetch_relation_data c
          (relation_set relation (AppE (this_app c)) "data" (_serialize_data wrapped))
          validate
        = Return (p, items) → p = VDict ing) as Hfetch
  end.
  { intros validate p items. unfold IngressPerUnitProvider._fetch_relation_data.
    cbn [rel_app relation_set]. rewrite Ha, Hn, Hl. cbn [negb].
    rewrite databag_relation_set, decide_True by done. rewrite lookup_insert_eq.
    cbn [raw_truthy default from_option id]. unfold _serialize_data.
    destruct (yaml_safe_dump _ 2) eqn:Hd; [by apply dump_nonempty in Hd|].
    cbn [str_truthy]. rewrite <- Hd. unfold _deserialize_data. rewrite load_dump.
    cbn [mbind result_bind]. unfold _validate_data.
    destruct validate;
      do 3 (cbn [mbind result_bind py_get default from_option id];
            rewrite ?Hv, ?lookup_singleton_eq);
      (match goal with |- ?f ≫= _ = _ → _ => destruct f end);
      cbn [mbind result_bind]; congruence. }
  split; [done|].
  intros self Hc Hrels Hret. exists ing. split; [done|].
  unfold IngressPerUnitProvider.proxied_endpoints. rewrite Hc, Hrels.
  cbn [IngressPerUnitProvider.proxied_endpoints_loop].
  destruct (IngressPerUnitProvider._fetch_relation_data _ _ _) as [[p items]|] eqn:Hf;
    [|done].
  rewrite (Hfetch _ _ _ Hf). cbn. by rewrite map_union_empty.
Qed.

(** X10, witness: the leader publishes the aggregate with the URL of
    [web/0] on a fresh relation. *)
Lemma publish_ingress_data_then_fetch_witness :
  let data := VDict {[ "web/0" := url_entry "http://traefik/m1-web-0" ]} in
  let relation' :=
    relation_set Examples.fresh_relation (AppE Examples.traefik) "data"
      Examples.published_data in
  (∀ validate p items,
     IngressPerUnitProvider._fetch_relation_data (Y := PyYaml.yaml)
       Examples.leader relation' validate = Return (p, items) →
     p = data)
  ∧ (∀ self,
       IngressPerUnitProvider.charm self = Examples.leader →
       IngressPerUnitProvider.relations self = [relation'] →
       returns (IngressPerUnitProvider._fetch_relation_data (Y := PyYaml.yaml)
                  Examples.leader relation' false) = true →
       ∃ ing, data = VDict ing
              ∧ IngressPerUnitProvider.proxied_endpoints (Y := PyYaml.yaml) self = inr ing).
Proof.
  apply (publish_ingress_data_then_fetch Examples.leader _ Examples.fresh_relation).
  - exact yaml_round_trip.
  - vm_compute. reflexivity.
  - intros H. vm_compute in H. discriminate.
Defined.

(** ** [proxied_endpoints] *)

Lemma fetch_remote_units_raise {Y : Yaml} relation us acc e :
  IngressPerUnitProvider.fetch_remote_units relation false us acc = Raise e →
  e = YAMLError.
Proof.
  revert acc. induction us as [|u us IH]; intros acc; [done|].
  cbn [IngressPerUnitProvider.fetch_remote_units].
  destruct (raw_truthy _); cbn [mbind result_bind]; [|apply IH].
  unfold _deserialize_data. destruct (yaml_safe_load _); cbn [mbind result_bind].
  - apply IH.
  - by intros [= <-].
Qed.

Lemma fetch_relation_data_non_leader {Y : Yaml} c relation :
  is_leader c = false →
  (∃ items, IngressPerUnitProvider._fetch_relation_data c relation false
            = Return (VDict ∅, items))
  ∨ IngressPerUnitProvider._fetch_relation_data c relation false = Raise YAMLError.
Proof.
  intros Hl. unfold IngressPerUnitProvider._fetch_relation_data. rewrite Hl.
  destruct (match rel_app relation with None => true | Some a => _ end); [by eauto|].
  cbn [mbind result_bind].
  destruct (IngressPerUnitProvider.fetch_remote_units _ _ _ _) as [items|e] eqn:Hf;
    cbn [mbind result_bind]; [by eauto|].
  right. by rewrite (fetch_remote_units_raise _ _ _ _ Hf).
Qed.

(** X11.  On a unit that is not the leader [proxied_endpoints] is the empty
    dictionary, whatever the leader has published; the one way it fails is the
    [YAMLError] of a requirer unit's text that is not YAML, which the fetch
    loads although the property does not use it. *)
Theorem proxied_endpoints_non_leader {Y : Yaml} (self : IngressPerUnitProvider.t) :
  is_leader (IngressPerUnitProvider.charm self) = false →
  IngressPerUnitProvider.proxied_endpoints self = inr ∅
  ∨ IngressPerUnitProvider.proxied_endpoints self
    = inl (IngressPerUnitProvider.Exn YAMLError).
Proof.
  intros Hl. unfold IngressPerUnitProvider.proxied_endpoints.
  induction (IngressPerUnitProvider.relations self) as [|r rels IH]; [by left|].
  cbn [IngressPerUnitProvider.proxied_endpoints_loop].
  destruct (fetch_relation_data_non_leader _ r Hl) as [[items ->]| ->]; [|by right].
  cbn [IngressPerUnitProvider.dict_update]. by rewrite map_union_empty.
Qed.

(** X11, witness: a unit that is not the leader, on a relation on which the
    leader has published a URL. *)
Lemma proxied_endpoints_non_leader_witness :
  IngressPerUnitProvider.proxied_endpoints (Y := PyYaml.yaml)
    (Examples.provider Examples.follower
       [relation_set Examples.fresh_relation (AppE Examples.traefik) "data"
          Examples.published_data]) = inr ∅
  ∨ IngressPerUnitProvider.proxied_endpoints (Y := PyYaml.yaml)
      (Examples.provider Examples.follower
         [relation_set Examples.fresh_relation (AppE Examples.traefik) "data"
            Examples.published_data])
    = inl (IngressPerUnitProvider.Exn YAMLError).
Proof.
  apply (proxied_endpoints_non_leader (Y := PyYaml.yaml)). reflexivity.
Defined.

Lemma map_union_list_app (l1 l2 : list (gmap string value)) :
  ⋃ (l1 ++ l2) = ⋃ l1 ∪ ⋃ l2.
Proof.
  induction l1 as [|m l1 IH]; cbn [app union_list foldr].
  - by rewrite map_empty_union.
  - fold (⋃ (l1 ++ l2)). fold (⋃ l1). by rewrite IH, map_union_assoc.
Qed.

Lemma proxied_endpoints_loop_merge {Y : Yaml} c rels ms acc :
  Forall2 (λ r m, ∃ items,
             IngressPerUnitProvider._fetch_relation_data c r false
             = Return (VDict m, items)) rels ms →
  IngressPerUnitProvider.proxied_endpoints_loop c rels acc = inr (⋃ (reverse ms) ∪ acc).
Proof.
  intros H. revert acc. induction H as [|r m rels ms [items Hf] _ IH]; intros acc.
  - cbn. by rewrite map_empty_union.
  - cbn [IngressPerUnitProvider.proxied_endpoints_loop].
    rewrite Hf. cbn [IngressPerUnitProvider.dict_update]. rewrite IH.
    rewrite reverse_cons, map_union_list_app. cbn [union_list foldr].
    by rewrite map_union_empty, map_union_assoc.
Qed.

Lemma union_list_lookup_Some (ms : list (gmap string value)) k e :
  (⋃ ms) !! k = Some e → ∃ m, m ∈ ms ∧ m !! k = Some e.
Proof.
  induction ms as [|m ms IH]; cbn [union_list foldr].
  - by rewrite lookup_empty.
  - intros [Hm|[_ Hms]]%lookup_union_Some_raw.
    + exists m. split; [by apply elem_of_cons; left | done].
    + destruct (IH Hms) as (m' & Hin & Hm'). exists m'.
      split; [by apply elem_of_cons; right | done].
Qed.

Lemma union_list_lookup_is_Some (ms : list (gmap string value)) m k :
  m ∈ ms → is_Some (m !! k) → is_Some ((⋃ ms) !! k).
Proof.
  induction ms as [|m' ms IH]; [by intros ?%elem_of_nil|].
  cbn [union_list foldr]. rewrite lookup_union_is_Some.
  intros [->|Hin]%elem_of_cons Hk; [by left | right; by apply IH].
Qed.

(** X12.  When the fetch of every relation returns a mapping as its provider
    part, [proxied_endpoints] is the union of these mappings, a later relation
    replacing the entry an earlier one has for the same unit name: every entry
    of the result is an entry of some relation, and every unit name of every
    relation is in the result. *)
Theorem proxied_endpoints_merge {Y : Yaml} (self : IngressPerUnitProvider.t)
    (ms : list (gmap string value)) :
  Forall2 (λ r m, ∃ items,
             IngressPerUnitProvider._fetch_relation_data
               (IngressPerUnitProvider.charm self) r false
             = Return (VDict m, items))
    (IngressPerUnitProvider.relations self) ms →
  ∃ results,
    IngressPerUnitProvider.proxied_endpoints self = inr results
    ∧ results = ⋃ (reverse ms)
    ∧ (∀ k e, results !! k = Some e → ∃ m, m ∈ ms ∧ m !! k = Some e)
    ∧ (∀ m k, m ∈ ms → is_Some (m !! k) → is_Some (results !! k)).
Proof.
  intros H. exists (⋃ (reverse ms)). split; [|split; [done|split]].
  - unfold IngressPerUnitProvider.proxied_endpoints.
    rewrite (proxied_endpoints_loop_merge _ _ ms) by done. by rewrite map_union_empty.
  - intros k e (m & Hin & Hm)%union_list_lookup_Some. exists m.
    split; [by apply elem_of_reverse | done].
  - intros m k Hin. apply union_list_lookup_is_Some. by apply elem_of_reverse.
Qed.

(** X12, witness: the leader with two relations, a URL published on the
    first. *)
Lemma proxied_endpoints_merge_witness :
  let ms : list (gmap string value) :=
    [ {[ "web/0" := url_entry "http://traefik/m1-web-0" ]}; ∅ ] in
  ∃ results,
    IngressPerUnitProvider.proxied_endpoints (Y := PyYaml.yaml)
      (Examples.provider Examples.leader
         [relation_set Examples.fresh_relation (AppE Examples.traefik) "data"
            Examples.published_data;
          Examples.fresh_relation]) = inr results
    ∧ results = ⋃ (reverse ms)
    ∧ (∀ k e, results !! k = Some e → ∃ m, m ∈ ms ∧ m !! k = Some e)
    ∧ (∀ m k, m ∈ ms → is_Some (m !! k) → is_Some (results !! k)).
Proof.
  apply (proxied_endpoints_merge (Y := PyYaml.yaml)
           (Examples.provider Examples.leader
              [relation_set Examples.fresh_relation (AppE Examples.traefik) "data"
                 Examples.published_data;
               Examples.fresh_relation])).
  repeat constructor; eexists; vm_compute; reflexivity.
Defined.

(** ** [get_status] *)

Lemma ready_is_available relation :
  _IngressPerUnitBase.is_ready_rel relation = Return true →
  ∀ rels, _IngressPerUnitBase.is_available rels (Some relation) = Return true.
Proof.
  unfold _IngressPerUnitBase.is_ready_rel, _IngressPerUnitBase.is_available,
    _IngressPerUnitBase.is_available_rel.
  destruct (rel_app relation) as [a|]; [|done]. by destruct (str_truthy _).
Qed.

Lemma provider_is_ready_base {Y : Yaml} self relation :
  IngressPerUnitProvider.is_ready self (Some relation) = Return true →
  _IngressPerUnitBase.is_ready_rel relation = Return true.
Proof.
  cbn [IngressPerUnitProvider.is_ready]. unfold IngressPerUnitProvider.is_ready_rel.
  by destruct (_IngressPerUnitBase.is_ready_rel relation) as [[]|].
Qed.

Lemma requirer_is_ready_base {Y : Yaml} self relation :
  IngressPerUnitRequirer.is_ready self (Some relation) = Return true →
  _IngressPerUnitBase.is_ready_rel relation = Return true.
Proof.
  unfold IngressPerUnitRequirer.is_ready. cbn [_IngressPerUnitBase.is_ready].
  by destruct (_IngressPerUnitBase.is_ready_rel relation) as [[]|].
Qed.

Lemma get_status_active_iff {Self : Type}
    (rd av fl : Self → option Relation → result bool) relation self :
  (rd self (Some relation) = Return true → av self (Some relation) = Return true) →
  _IngressPerUnitBase.get_status rd av fl relation self = Return ActiveStatus
  ↔ fl self (Some relation) = Return false ∧ rd self (Some relation) = Return true.
Proof.
  intros Hra. unfold _IngressPerUnitBase.get_status.
  destruct (fl self (Some relation)) as [[]|]; cbn [mbind result_bind];
    [by split; [|intros [? _]] | | by split; [|intros [? _]]].
  destruct (rd self (Some relation)) as [[]|] eqn:Hrd.
  - rewrite Hra by done. done.
  - destruct (av self (Some relation)) as [[]|]; cbn [mbind result_bind negb];
      by split; [|intros [_ ?]].
  - destruct (av self (Some relation)) as [[]|]; cbn [mbind result_bind negb];
      by split; [|intros [_ ?]].
Qed.

(** X13.  On both roles [get_status] suggests [ActiveStatus] exactly when
    [is_failed] returns false and [is_ready] returns true for the relation: the
    test of [is_available] in between never decides, a ready relation being
    available. *)
Theorem get_status_active {Y : Yaml} (relation : Relation) :
  (∀ self : IngressPerUnitProvider.t,
     IngressPerUnitProvider.get_status relation self = Return ActiveStatus
     ↔ IngressPerUnitProvider.is_failed self (Some relation) = Return false
       ∧ IngressPerUnitProvider.is_ready self (Some relation) = Return true)
  ∧ (∀ self : IngressPerUnitRequirer.t,
     IngressPerUnitRequirer.get_status relation self = Return ActiveStatus
     ↔ IngressPerUnitRequirer.is_failed self (Some relation) = Return false
       ∧ IngressPerUnitRequirer.is_ready self (Some relation) = Return true).
Proof.
  split; intros self; apply get_status_active_iff; intros Hrd.
  - by apply ready_is_available, (provider_is_ready_base self).
  - by apply ready_is_available, (requirer_is_ready_base self).
Qed.

(** ** The requirer's requests and hooks *)

Lemma preserves_bind {S A B} (P : S → Prop) (m : M S A) (k : A → M S B) :
  preserves P m → (∀ a, preserves P (k a)) → preserves P (m ≫= k).
Proof.
  intros Hm Hk s Hs. unfold mbind, M_bind. specialize (Hm s Hs).
  destruct (m s) as [[a|e] s']; cbn [snd] in *; [by apply Hk | done].
Qed.

Lemma preserves_ret {S A} (P : S → Prop) (a : A) : preserves P (mret a : M S A).
Proof. by intros s Hs. Qed.

Lemma preserves_lift {S A} (P : S → Prop) (r : result A) : preserves P (lift r : M S A).
Proof. by intros s Hs. Qed.

Lemma preserves_get {S} (P : S → Prop) : preserves P (get : M S S).
Proof. by intros s Hs. Qed.

Lemma preserves_mapM {S A B} (P : S → Prop) (f : A → M S B) (l : list A) :
  (∀ a, preserves P (f a)) → preserves P (mapM f l).
Proof.
  intros Hf. induction l as [|a l IH]; cbn [mapM]; [apply preserves_ret|].
  apply preserves_bind; [done|]. intros b.
  apply preserves_bind; [done|]. intros bs. apply preserves_ret.
Qed.

Lemma preserves_base_handle_relation {Self} (P : Self → Prop) rd av fl
    (emit : event → M Self unit) relation :
  (∀ e, preserves P (emit e)) →
  preserves P (_IngressPerUnitBase._handle_relation rd av fl emit relation).
Proof.
  intros He. unfold _IngressPerUnitBase._handle_relation, _IngressPerUnitBase.log_debug.
  apply preserves_bind; [apply preserves_get|]. intros self.
  apply preserves_bind; [apply preserves_lift|]. intros [|]; [done|].
  apply preserves_bind; [apply preserves_lift|]. intros [|]; [done|].
  apply preserves_bind; [apply preserves_lift|]. intros [|]; [done|].
  apply preserves_ret.
Qed.

(** The hooks of the requirer keep a property that [emit], the
    relation-broken flag and [_publish_auto_data] keep. *)
Lemma preserves_dispatch {Y : Yaml} (P : IngressPerUnitRequirer.t → Prop) ev :
  (∀ e, preserves P (IngressPerUnitRequirer.emit e)) →
  preserves P (IngressPerUnitRequirer.set_is_relation_broken true) →
  (∀ r, preserves P (IngressPerUnitRequirer._publish_auto_data r)) →
  preserves P (IngressPerUnitRequirer.dispatch ev).
Proof.
  intros He Hb Hauto.
  assert (∀ r, preserves P (IngressPerUnitRequirer._handle_relation r)) as Hh.
  { intros r. unfold IngressPerUnitRequirer._handle_relation.
    apply preserves_bind; [by apply preserves_base_handle_relation | done]. }
  assert (∀ ev', preserves P (IngressPerUnitRequirer._emit_ingress_change_event ev'))
    as Hc.
  { intros ev'. unfold IngressPerUnitRequirer._emit_ingress_change_event.
    apply preserves_bind; [destruct ev'; first [done | apply preserves_ret]|].
    intros _. apply preserves_bind; [apply preserves_get | done]. }
  destruct ev; cbn [IngressPerUnitRequirer.dispatch]; try done.
  - apply preserves_bind; done.
  - apply preserves_bind; [|done].
    unfold IngressPerUnitRequirer._handle_relation_broken,
      _IngressPerUnitBase._handle_relation_broken. done.
  - unfold IngressPerUnitRequirer._handle_upgrade_or_leader.
    apply preserves_bind; [apply preserves_get|]. intros self.
    apply preserves_bind; [by apply preserves_mapM|]. intros _. apply preserves_ret.
  - unfold IngressPerUnitRequirer._handle_upgrade_or_leader.
    apply preserves_bind; [apply preserves_get|]. intros self.
    apply preserves_bind; [by apply preserves_mapM|]. intros _. apply preserves_ret.
Qed.

(** [_publish_ingress_data], run: with no relation [self.relation] is [None]
    and its [data] raises; otherwise the record is written to this unit's
    databag of the first relation. *)
Lemma requirer_publish_ingress_data_eq {Y : Yaml} host port self :
  IngressPerUnitRequirer._publish_ingress_data host port self
  = match IngressPerUnitRequirer.relations self with
    | [] => (Raise AttributeError, self)
    | r :: rest =>
        (Return tt,
         {| IngressPerUnitRequirer.charm := IngressPerUnitRequirer.charm self;
            IngressPerUnitRequirer.relations :=
              relation_set r (UnitE (this_unit (IngressPerUnitRequirer.charm self))) "data"
                (_serialize_data
                   (published_record (IngressPerUnitRequirer.charm self) host port))
              :: rest;
            IngressPerUnitRequirer._auto_data := IngressPerUnitRequirer._auto_data self;
            IngressPerUnitRequirer.is_relation_broken :=
              IngressPerUnitRequirer.is_relation_broken self;
            IngressPerUnitRequirer.on := IngressPerUnitRequirer.on self |})
    end.
Proof.
  unfold IngressPerUnitRequirer._publish_ingress_data, mbind, M_bind, get,
    IngressPerUnitRequirer.on_relation.
  destruct (IngressPerUnitRequirer.relations self) as [|r rest]; [done|].
  unfold databag_setitem. cbn [is_mutable].
  rewrite bool_decide_eq_true_2 by done. done.
Qed.

(** X14.  What a requirer unit sends with [request] is what the provider
    reads: on a related requirer [request] returns, and on the relation it
    wrote, seen from the provider's side, [get_data] with validation returns
    the record with the model, the unit name, the port and the host, the bind
    address standing for a host that is absent or empty; and [is_unit_ready] is
    true for the unit. *)
Theorem request_then_get_data {Y : Yaml} (self : IngressPerUnitRequirer.t)
    (host : option string) (port : Z) :
  YamlRoundTrip Y →
  IngressPerUnitRequirer.relations self ≠ [] →
  let c := IngressPerUnitRequirer.charm self in
  let '(res, self') := IngressPerUnitRequirer.request host port self in
  res = Return tt
  ∧ ∃ relation',
      IngressPerUnitRequirer.relation self' = Some relation'
      ∧ ∀ seen, same_databags relation' seen →
          IngressPerUnitProvider.get_data seen (this_unit c) true
          = Return (published_record c host port)
          ∧ (this_unit c ∈ rel_units seen →
             IngressPerUnitProvider.is_unit_ready seen (this_unit c) = Some true).
Proof.
  intros HY Hrels c. unfold IngressPerUnitRequirer.request.
  rewrite requirer_publish_ingress_data_eq. unfold IngressPerUnitRequirer.relation.
  destruct (IngressPerUnitRequirer.relations self) as [|r rest]; [done|].
  split; [done|]. eexists. split; [done|].
  intros seen Hseen.
  assert (databag seen (UnitE (this_unit c)) !! "data"
          = Some (_serialize_data (published_record c host port))) as Hraw.
  { rewrite (databag_same _ _ _ Hseen), databag_relation_set, decide_True by done.
    apply lookup_insert_eq. }
  split.
  - unfold IngressPerUnitProvider.get_data. rewrite Hraw.
    unfold _deserialize_data, _serialize_data, published_record, RequirerData.
    rewrite load_dump. cbn [mbind result_bind]. unfold _validate_data.
    fold (RequirerData (model_name c) (unit_name (this_unit c))
            (published_host c host) port).
    by rewrite requirer_record_valid.
  - intros Hin. unfold IngressPerUnitProvider.is_unit_ready.
    rewrite bool_decide_eq_true_2, Hraw by done. cbn [raw_truthy].
    unfold _serialize_data.
    destruct (yaml_safe_dump _ 2) eqn:Hd; [by apply dump_nonempty in Hd | done].
Qed.

(** X14, witness: unit [web/0] requests ingress on port 80, with no host. *)
Lemma request_then_get_data_witness :
  let c := Examples.web_charm in
  let '(res, self') :=
    IngressPerUnitRequirer.request (Y := PyYaml.yaml) None 80
      (Examples.requirer [Examples.waiting_relation]) in
  res = Return tt
  ∧ ∃ relation',
      IngressPerUnitRequirer.relation self' = Some relation'
      ∧ ∀ seen, same_databags relation' seen →
          IngressPerUnitProvider.get_data (Y := PyYaml.yaml) seen (this_unit c) true
          = Return (published_record c None 80)
          ∧ (this_unit c ∈ rel_units seen →
             IngressPerUnitProvider.is_unit_ready seen (this_unit c) = Some true).
Proof.
  apply (request_then_get_data (Examples.requirer [Examples.waiting_relation]) None 80).
  - exact yaml_round_trip.
  - done.
Defined.

(** X15.  A requirer does not fail on its own request: after [request], for
    any host and port, [is_failed] returns false for every relation whose
    remote application is present. *)
Theorem requirer_not_failed_after_request {Y : Yaml} (self : IngressPerUnitRequirer.t)
    (host : option string) (port : Z) (relation : Relation) :
  YamlRoundTrip Y →
  IngressPerUnitRequirer.relations self ≠ [] →
  is_Some (rel_app relation) →
  IngressPerUnitRequirer.is_failed
    (IngressPerUnitRequirer.request host port self).2 (Some relation)
  = Return false.
Proof.
  intros HY Hrels [a Ha]. unfold IngressPerUnitRequirer.request.
  rewrite requirer_publish_ingress_data_eq.
  destruct (IngressPerUnitRequirer.relations self) as [|r rest]; [done|].
  cbn [snd]. unfold IngressPerUnitRequirer.is_failed, IngressPerUnitRequirer.is_failed_rel.
  cbn [IngressPerUnitRequirer.relations IngressPerUnitRequirer.charm].
  rewrite Ha. destruct (str_truthy (app_name a)); cbn [negb]; [|done].
  case_bool_decide; [done|].
  rewrite databag_relation_set, decide_True by done. rewrite lookup_insert_eq.
  cbn [raw_truthy default from_option id]. unfold _serialize_data at 1.
  destruct (yaml_safe_dump _ 2) eqn:Hd; [by apply dump_nonempty in Hd|].
  cbn [str_truthy].
  unfold _deserialize_data, _serialize_data, published_record, RequirerData.
  rewrite load_dump. cbn [mbind result_bind]. unfold _validate_data.
  fold (RequirerData (model_name (IngressPerUnitRequirer.charm self))
          (unit_name (this_unit (IngressPerUnitRequirer.charm self)))
          (published_host (IngressPerUnitRequirer.charm self) host) port).
  by rewrite requirer_record_valid.
Qed.

(** X15, witness: unit [web/0] requests ingress for a host and a port. *)
Lemma requirer_not_failed_after_request_witness :
  IngressPerUnitRequirer.is_failed (Y := PyYaml.yaml)
    (IngressPerUnitRequirer.request (Y := PyYaml.yaml) (Some "web-0.local") 8080
       (Examples.requirer [Examples.waiting_relation])).2
    (Some Examples.waiting_relation)
  = Return false.
Proof.
  apply (requirer_not_failed_after_request
           (Examples.requirer [Examples.waiting_relation]) (Some "web-0.local") 8080
           Examples.waiting_relation).
  - exact yaml_round_trip.
  - done.
  - by eexists.
Defined.

(** X16.  A requirer built with a port publishes on its own: when
    [_handle_relation] returns for an available relation, the record for the
    host and port of the constructor is in this unit's databag of the
    requirer's first relation, whichever relation the event was for; the other
    relations are as they were. *)
Theorem handle_relation_publishes_auto_data {Y : Yaml}
    (self self' : IngressPerUnitRequirer.t) (relation : Relation)
    (host : option string) (port : Z) :
  IngressPerUnitRequirer._auto_data self = Some (host, port) →
  IngressPerUnitRequirer.is_available self (Some relation) = Return true →
  IngressPerUnitRequirer._handle_relation relation self = (Return tt, self') →
  let c := IngressPerUnitRequirer.charm self in
  ∃ r rest,
    IngressPerUnitRequirer.relations self = r :: rest
    ∧ IngressPerUnitRequirer.relations self'
      = relation_set r (UnitE (this_unit c)) "data"
          (_serialize_data (published_record c host port)) :: rest.
Proof.
  intros Hauto Hav Hh c.
  unfold IngressPerUnitRequirer._handle_relation, mbind, M_bind in Hh.
  pose proof (preserves_base_handle_relation
    (λ s, IngressPerUnitRequirer.charm s = c
          ∧ IngressPerUnitRequirer.relations s = IngressPerUnitRequirer.relations self
          ∧ IngressPerUnitRequirer._auto_data s = Some (host, port))
    IngressPerUnitRequirer.is_ready IngressPerUnitRequirer.is_available
    IngressPerUnitRequirer.is_failed IngressPerUnitRequirer.emit relation) as Hbase.
  specialize (Hbase ltac:(by intros e s Hs) self ltac:(done)).
  destruct (_IngressPerUnitBase._handle_relation _ _ _ _ _ self) as [[[]|e] s1];
    [|done].
  cbn [snd] in Hbase. destruct Hbase as (Hc & Hr & Ha).
  unfold IngressPerUnitRequirer._publish_auto_data, mbind, M_bind, get, lift in Hh.
  rewrite Ha in Hh.
  assert (IngressPerUnitRequirer.is_available s1 (Some relation) = Return true) as Hav1.
  { unfold IngressPerUnitRequirer.is_available in *. by rewrite Hr. }
  rewrite Hav1, requirer_publish_ingress_data_eq, Hr, Hc in Hh.
  destruct (IngressPerUnitRequirer.relations self) as [|r rest]; [done|].
  injection Hh as <-. by exists r, rest.
Qed.

(** X16, witness: unit [web/0], built with port 80, handles a relation event
    before the provider has published anything. *)
Lemma handle_relation_publishes_auto_data_witness :
  let c := Examples.web_charm in
  let self := Examples.requirer [Examples.waiting_relation] in
  let self' :=
    (IngressPerUnitRequirer._handle_relation (Y := PyYaml.yaml)
       Examples.waiting_relation self).2 in
  ∃ r rest,
    IngressPerUnitRequirer.relations self = r :: rest
    ∧ IngressPerUnitRequirer.relations self'
      = relation_set r (UnitE (this_unit c)) "data"
          (_serialize_data (Y := PyYaml.yaml) (published_record c None 80)) :: rest.
Proof.
  apply (handle_relation_publishes_auto_data (Y := PyYaml.yaml)
           (Examples.requirer [Examples.waiting_relation]) _
           Examples.waiting_relation None 80).
  - reflexivity.
  - reflexivity.
  - vm_compute. reflexivity.
Defined.

(** X17.  The constructor keeps no automatic request exactly when it is given
    no port or the port 0; and a requirer with no automatic request writes to
    no databag in any hook: the relations are after the hook what they were
    before it, and there is still no automatic request. *)
Theorem requirer_without_port_never_publishes {Y : Yaml} :
  (∀ c rels host port,
     IngressPerUnitRequirer._auto_data (IngressPerUnitRequirer.__init__ c rels host port)
     = None ↔ port = None ∨ port = Some 0%Z)
  ∧ (∀ self ev,
       IngressPerUnitRequirer._auto_data self = None →
       let self' := (IngressPerUnitRequirer.dispatch ev self).2 in
       IngressPerUnitRequirer.relations self' = IngressPerUnitRequirer.relations self
       ∧ IngressPerUnitRequirer._auto_data self' = None).
Proof.
  split.
  - intros c rels host [p|]; cbn; [|split; [by left | done]].
    destruct (Z.eqb_spec p 0) as [->|Hp]; cbn; [split; [by right | done]|].
    split; [done|]. intros [[=]|[= ->]]. done.
  - intros self ev Hauto.
    apply (preserves_dispatch
             (λ s, IngressPerUnitRequirer.relations s = IngressPerUnitRequirer.relations self
                   ∧ IngressPerUnitRequirer._auto_data s = None) ev);
      [by intros e s Hs | by intros s Hs | | done].
    intros r s [Hr Ha]. unfold IngressPerUnitRequirer._publish_auto_data,
      mbind, M_bind, get. by rewrite Ha.
Qed.

(** X18.  The relation-broken flag is never cleared: once it is set, it is
    set after every hook; and while it is set [urls] is empty, [url] is [None]
    and [is_ready] is false, for one relation and for any, without an error
    whatever the databags hold. *)
Theorem relation_broken_is_final {Y : Yaml} (self : IngressPerUnitRequirer.t) :
  IngressPerUnitRequirer.is_relation_broken self = true →
  (∀ ev, IngressPerUnitRequirer.is_relation_broken
           (IngressPerUnitRequirer.dispatch ev self).2 = true)
  ∧ IngressPerUnitRequirer.urls self = Return ∅
  ∧ IngressPerUnitRequirer.url self = Return None
  ∧ (∀ relation, IngressPerUnitRequirer.is_ready self relation = Return false).
Proof.
  intros Hb.
  assert (IngressPerUnitRequirer.urls self = Return ∅) as Hurls.
  { unfold IngressPerUnitRequirer.urls. rewrite Hb.
    by destruct (IngressPerUnitRequirer.relation self). }
  assert (IngressPerUnitRequirer.url self = Return None) as Hurl.
  { unfold IngressPerUnitRequirer.url. rewrite Hurls. cbn.
    by rewrite bool_decide_eq_true_2. }
  assert (∀ r, IngressPerUnitRequirer.is_ready_rel self r = Return false) as Hrel.
  { intros r. unfold IngressPerUnitRequirer.is_ready_rel, _IngressPerUnitBase.is_ready_rel.
    rewrite Hurl. destruct (rel_app r) as [a|]; [|done]. by destruct (str_truthy _). }
  split; [|split; [done|split; [done|]]].
  - intros ev.
    apply (preserves_dispatch
             (λ s, IngressPerUnitRequirer.is_relation_broken s = true) ev);
      [by intros e s Hs | by intros s Hs | | done].
    intros r s Hs. unfold IngressPerUnitRequirer._publish_auto_data,
      mbind, M_bind, get.
    destruct (IngressPerUnitRequirer._auto_data s) as [[host port]|]; [|done].
    unfold lift. destruct (IngressPerUnitRequirer.is_available s (Some r)) as [[]|];
      try done.
    rewrite requirer_publish_ingress_data_eq.
    by destruct (IngressPerUnitRequirer.relations s).
  - intros [r|]; unfold IngressPerUnitRequirer.is_ready;
      cbn [_IngressPerUnitBase.is_ready].
    + unfold _IngressPerUnitBase.is_ready_rel. rewrite Hurl.
      destruct (rel_app r) as [a|]; [|done]. by destruct (str_truthy _).
    + assert (any_map (IngressPerUnitRequirer.is_ready_rel self)
                (IngressPerUnitRequirer.relations self) = Return false) as ->; [|done].
      induction (IngressPerUnitRequirer.relations self) as [|r rs IH]; [done|].
      cbn [any_map]. rewrite Hrel. done.
Qed.

(** X18, witness: the requirer of a published relation, after the
    relation-broken notification. *)
Lemma relation_broken_is_final_witness :
  let self :=
    (IngressPerUnitRequirer.dispatch (Y := PyYaml.yaml)
       (relation_broken Examples.published_relation)
       (Examples.requirer [Examples.published_relation])).2 in
  (∀ ev, IngressPerUnitRequirer.is_relation_broken
           (IngressPerUnitRequirer.dispatch (Y := PyYaml.yaml) ev self).2 = true)
  ∧ IngressPerUnitRequirer.urls (Y := PyYaml.yaml) self = Return ∅
  ∧ IngressPerUnitRequirer.url (Y := PyYaml.yaml) self = Return None
  ∧ (∀ relation,
       IngressPerUnitRequirer.is_ready (Y := PyYaml.yaml) self relation = Return false).
Proof.
  apply (relation_broken_is_final (Y := PyYaml.yaml)). reflexivity.
Defined.

(** ** The predicates, polled *)















(** What the statement above leaves out.  A partition whose text is not YAML
    makes [is_failed] raise the error of the library, on both roles: the
    handlers catch [DataValidationError] only, and the requirer deserializes
    outside its handler. *)
Example is_failed_raises_on_unparseable_partition :
  IngressPerUnitProvider.is_failed (Y := PyYaml.yaml)
    (Examples.provider Examples.leader [Examples.unparseable_relation])
    (Some Examples.unparseable_relation)
  = Raise YAMLError
  ∧ IngressPerUnitRequirer.is_failed (Y := PyYaml.yaml)
      (Examples.requirer [Examples.unparseable_own_relation])
      (Some Examples.unparseable_own_relation)
    = Raise YAMLError.
Proof. split; vm_compute; reflexivity. Qed.
